(** * First-word extraction and attribute matching of the description analyser

    Shallow embedding of [src/main.py] ([extract_first_word], [find_matches])
    and of the frequency table built with [Counter(...).most_common()]
    ([src/main.py] line 321, [src/app.py] line 127).

    Python strings are sequences of Unicode code points; a text is modelled
    as a [list N] of code points.  The character tables used by the
    program ([str.isspace], [str.lower], the regex classes [\w] and
    [[a-zA-ZÀ-ÿ0-9]]) are written out exactly for the ASCII and Latin-1
    range (code points 0..255) and for all of [str.isspace]; code points
    above 255 are treated as caseless and as non-word characters. *)

From Stdlib Require Import Ascii String.
From Stdlib Require Import List Arith NArith Lia Bool.
From Stdlib Require Import Permutation Sorted.
Import ListNotations.

Definition char := N.
Definition text := list char.

(** ** Character tables *)

(** [str.isspace]: the Unicode whitespace code points. *)
Definition is_space (c : char) : bool :=
  (((9 <=? c) && (c <=? 13)) || ((28 <=? c) && (c <=? 32))
  || (c =? 133) || (c =? 160) || (c =? 5760)
  || ((8192 <=? c) && (c <=? 8202)) || (c =? 8232) || (c =? 8233)
  || (c =? 8239) || (c =? 8287) || (c =? 12288))%N.

(** [str.lower] on one code point: ASCII [A-Z] and Latin-1 [À-Þ]
    (without the multiplication sign [×]). *)
Definition lower_char (c : char) : char :=
  (if ((65 <=? c) && (c <=? 90)) || ((192 <=? c) && (c <=? 222) && negb (c =? 215))
  then c + 32 else c)%N.

Definition lower (s : text) : text := map lower_char s.

(** The regex class [[a-zA-ZÀ-ÿ0-9]] of [main.py] line 165. *)
Definition in_word_class (c : char) : bool :=
  (((97 <=? c) && (c <=? 122)) || ((65 <=? c) && (c <=? 90))
  || ((192 <=? c) && (c <=? 255)) || ((48 <=? c) && (c <=? 57)))%N.

(** The regex class [\w] of Python's [re] on [str] (alphanumerics and [_]),
    Latin-1 range. *)
Definition is_word (c : char) : bool :=
  (((97 <=? c) && (c <=? 122)) || ((65 <=? c) && (c <=? 90))
  || ((48 <=? c) && (c <=? 57)) || (c =? 95)
  || (c =? 170) || (c =? 178) || (c =? 179) || (c =? 181) || (c =? 185)
  || (c =? 186) || ((188 <=? c) && (c <=? 190))
  || ((192 <=? c) && (c <=? 255) && negb (c =? 215) && negb (c =? 247)))%N.

(** ** String operations *)

Fixpoint text_eqb (a b : text) : bool :=
  match a, b with
  | [], [] => true
  | x :: a', y :: b' => (x =? y)%N && text_eqb a' b'
  | _, _ => false
  end.

(** [s.startswith(p)] *)
Fixpoint prefixb (p s : text) : bool :=
  match p, s with
  | [], _ => true
  | x :: p', y :: s' => (x =? y)%N && prefixb p' s'
  | _ :: _, [] => false
  end.

Fixpoint lstrip (s : text) : text :=
  match s with
  | c :: s' => if is_space c then lstrip s' else s
  | [] => []
  end.

Definition rstrip (s : text) : text := rev (lstrip (rev s)).

(** [s.strip()] *)
Definition strip (s : text) : text := rstrip (lstrip s).

(** [re.sub(r'^[^a-zA-ZÀ-ÿ0-9]+', '', s)] *)
Fixpoint drop_non_class (s : text) : text :=
  match s with
  | c :: s' => if in_word_class c then s else drop_non_class s'
  | [] => []
  end.

(** [s.split()]: maximal runs of non-whitespace; [cur] is the reversed
    token being read. *)
Fixpoint split_aux (cur : text) (s : text) : list text :=
  match s with
  | [] => match cur with [] => [] | _ => [rev cur] end
  | c :: s' =>
      if is_space c then
        match cur with
        | [] => split_aux [] s'
        | _ => rev cur :: split_aux [] s'
        end
      else split_aux (c :: cur) s'
  end.

Definition split (s : text) : list text := split_aux [] s.

Definition is_nil {A} (l : list A) : bool :=
  match l with [] => true | _ => false end.

Definition mem (w : text) (l : list text) : bool := existsb (text_eqb w) l.

(** ** Stable sorting

    [sorted(xs, key=k, reverse=True)] is a stable sort by decreasing key
    (Python keeps the input order of equal keys also with [reverse=True]);
    every stable sort gives the same list, written here as an insertion
    sort. *)
Section SortDesc.
Context {A : Type} (key : A -> nat).

Fixpoint insert_desc (x : A) (l : list A) : list A :=
  match l with
  | [] => [x]
  | y :: l' => if key y <=? key x then x :: l else y :: insert_desc x l'
  end.

Fixpoint sort_desc (l : list A) : list A :=
  match l with
  | [] => []
  | x :: l' => insert_desc x (sort_desc l')
  end.
End SortDesc.

(** ** [extract_first_word] ([main.py] lines 147-172)

    The result of the Python function: [None], a string, or the
    [IndexError] raised by [split()[0]] on an empty list. *)
Inductive outcome :=
| NoWord
| Word (w : text)
| IndexError.

(** The code after the phrase loop: the first token of the text without its
    leading non-alphanumeric characters, and the stopword and length tests. *)
Definition finish_first_word (stopwords : list text) (text1 : text) : option outcome :=
  match split (drop_non_class text1) with
  | [] => Some IndexError
  | first_word :: _ =>
      if negb (is_nil stopwords) && negb (is_nil first_word)
         && mem (lower first_word) stopwords then Some NoWord
      else if negb (is_nil first_word) && (length first_word <? 3)
      then Some NoWord
      else if negb (is_nil first_word) then Some (Word first_word)
      else Some NoWord
  end.

(** The recursion on the remaining text is run with a fuel argument:
    [None] means that the recursion has not ended within [fuel] calls. *)
Fixpoint extract_first_word (fuel : nat) (stopwords ignore_phrases : list text)
    (text0 : text) : option outcome :=
  match fuel with
  | 0 => None
  | S fuel' =>
      let text1 := strip text0 in
      match text1 with
      | [] => Some NoWord
      | _ =>
          let tail := finish_first_word stopwords text1 in
          if negb (is_nil ignore_phrases) then
            match find (fun phrase => prefixb (lower phrase) (lower text1))
                       (sort_desc (@length char) ignore_phrases) with
            | Some phrase =>
                let remaining_text := strip (skipn (length phrase) text1) in
                match remaining_text with
                | [] => Some NoWord
                | _ => extract_first_word fuel' stopwords ignore_phrases remaining_text
                end
            | None => tail
            end
          else tail
      end
  end.

(** Values the column ["Descrição"] can hold, and the guard
    [pd.isna(text) or not isinstance(text, str)]. *)
Inductive pyval :=
| PyNone
| PyNaN
| PyInt (z : nat)
| PyStr (s : text).

Definition extract_first_word_value (fuel : nat) (stopwords ignore_phrases : list text)
    (v : pyval) : option outcome :=
  match v with
  | PyNone | PyNaN => Some NoWord
  | PyInt _ => Some NoWord
  | PyStr s => extract_first_word fuel stopwords ignore_phrases s
  end.

(** ASCII literals as code-point texts. *)
Definition txt (s : String.string) : text :=
  map Ascii.N_of_ascii (String.list_ascii_of_string s).

(** ** [find_matches] ([main.py] lines 130-145) *)

Record variation_data := {
  variation : text;
  patterns : list text
}.

(** The attribute configuration: a dict from attribute name to its list of
    variations, in insertion order. *)
Definition config := list (text * list variation_data).

Definition char_at (s : text) (i : nat) : option char := nth_error s i.

(** [\b] at position [i] of [s]. *)
Definition boundary (s : text) (i : nat) : bool :=
  let before := match i with
                | 0 => false
                | S j => match char_at s j with Some c => is_word c | None => false end
                end in
  let after := match char_at s i with Some c => is_word c | None => false end in
  xorb before after.

(** [re.search(rf'\b{re.escape(pattern)}\b', s, re.IGNORECASE)] is not
    [None]: some position [i] has a word boundary, the literal pattern
    (compared without case) starting at [i], and a word boundary after it. *)
Definition search_bounded (pattern s : text) : bool :=
  existsb (fun i => boundary s i && prefixb (lower pattern) (lower (skipn i s))
                    && boundary s (i + length pattern))
          (seq 0 (S (length s))).

(** [for pattern in variation_data["patterns"]: if ...: ...; break] *)
Fixpoint pattern_hit (text_lower : text) (pats : list text) : bool :=
  match pats with
  | [] => false
  | pattern :: pats' =>
      if search_bounded pattern text_lower then true else pattern_hit text_lower pats'
  end.

(** [matches[attribute].append(v)] on a [defaultdict(list)]. *)
Fixpoint dd_append (k v : text) (m : list (text * list text)) : list (text * list text) :=
  match m with
  | [] => [(k, [v])]
  | (k', vs) :: m' =>
      if text_eqb k' k then (k', vs ++ [v]) :: m' else (k', vs) :: dd_append k v m'
  end.

Fixpoint scan_variations (text_lower attribute : text) (variations : list variation_data)
    (m : list (text * list text)) : list (text * list text) :=
  match variations with
  | [] => m
  | vd :: vs =>
      let m' := if pattern_hit text_lower (patterns vd)
                then dd_append attribute (variation vd) m else m in
      scan_variations text_lower attribute vs m'
  end.

Fixpoint scan_config (text_lower : text) (cfg : config) (m : list (text * list text))
    : list (text * list text) :=
  match cfg with
  | [] => m
  | (attribute, variations) :: cfg' =>
      scan_config text_lower cfg' (scan_variations text_lower attribute variations m)
  end.

(** [set(v)]: duplicates removed (the order is irrelevant before [sorted]). *)
Fixpoint dedup (l : list text) : list text :=
  match l with
  | [] => []
  | x :: l' => if mem x l' then dedup l' else x :: dedup l'
  end.

(** Python's ordering of [str]: lexicographic on code points. *)
Fixpoint text_leb (a b : text) : bool :=
  match a, b with
  | [], _ => true
  | _ :: _, [] => false
  | x :: a', y :: b' => if (x <? y)%N then true else if (x =? y)%N then text_leb a' b' else false
  end.

Fixpoint insert_asc (x : text) (l : list text) : list text :=
  match l with
  | [] => [x]
  | y :: l' => if text_leb x y then x :: l else y :: insert_asc x l'
  end.

(** [sorted(...)] *)
Fixpoint sort_asc (l : list text) : list text :=
  match l with
  | [] => []
  | x :: l' => insert_asc x (sort_asc l')
  end.

(** ["/".join(...)] *)
Fixpoint join_slash (l : list text) : text :=
  match l with
  | [] => []
  | [x] => x
  | x :: l' => x ++ [47%N] ++ join_slash l'
  end.

Definition find_matches (text0 : text) (cfg : config) : list (text * text) :=
  if is_nil text0 || is_nil cfg then []
  else
    let text_lower := lower text0 in
    let matches := scan_config text_lower cfg [] in
    map (fun '(k, v) => (k, join_slash (sort_asc (dedup v)))) matches.

(** [d.get(k)] on a dict with text keys. *)
Fixpoint lookup {V : Type} (k : text) (m : list (text * V)) : option V :=
  match m with
  | [] => None
  | (k', v) :: m' => if text_eqb k' k then Some v else lookup k m'
  end.

(** ** Frequency table: [Counter(words).most_common()] *)

(** [self[elem] = self.get(elem, 0) + 1]; a new key goes at the end. *)
Fixpoint counter_add (d : list (text * nat)) (w : text) : list (text * nat) :=
  match d with
  | [] => [(w, 1)]
  | (k, c) :: d' => if text_eqb k w then (k, S c) :: d' else (k, c) :: counter_add d' w
  end.

Definition counter (words : list text) : list (text * nat) := fold_left counter_add words [].

(** [most_common()]: [sorted(self.items(), key=itemgetter(1), reverse=True)]. *)
Definition most_common (words : list text) : list (text * nat) :=
  sort_desc snd (counter words).

(** A text without whitespace. *)
Definition no_space (w : text) : Prop := Forall (fun c => is_space c = false) w.

(** [DEFAULT_STOPWORDS] ([main.py] lines 28-36); [é] is 233, [ã] is 227. *)
Definition DEFAULT_STOPWORDS : list text :=
  map txt ["de"%string; "para"%string; "com"%string; "sem"%string; "em"%string; "por"%string; "que"%string; "os"%string; "as"%string; "um"%string; "uma"%string;
    "ao"%string; "aos"%string; "do"%string; "da"%string; "dos"%string; "das"%string; "no"%string; "na"%string; "nos"%string; "nas"%string; "pelo"%string;
    "pela"%string; "pelos"%string; "pelas"%string; "este"%string; "esta"%string; "estes"%string; "estas"%string; "esse"%string;
    "essa"%string; "esses"%string; "essas"%string; "aquele"%string; "aquela"%string; "aqueles"%string; "aquelas"%string;
    "ou"%string; "e"%string; "mas"%string]
  ++ [txt "por" ++ [233%N; 109%N]]
  ++ map txt ["entretanto"%string; "contudo"%string; "quando"%string; "enquanto"%string;
    "como"%string; "porque"%string; "pois"%string; "assim"%string]
  ++ [txt "ent" ++ [227%N; 111%N]]
  ++ map txt ["logo"%string; "portanto"%string; "desse"%string;
    "dessa"%string; "destes"%string; "destas"%string; "deste"%string; "isso"%string; "isto"%string; "aquilo"%string].

(** Two configurations with the same attributes and variations, in the same
    order, whose pattern lists differ only by a permutation. *)
Definition same_up_to_pattern_order (cfg cfg' : config) : Prop :=
  Forall2 (fun ae ae' => fst ae = fst ae'
             /\ Forall2 (fun vd vd' => variation vd = variation vd'
                                       /\ Permutation (patterns vd) (patterns vd'))
                        (snd ae) (snd ae'))
          cfg cfg'.

(** A variation matches a lowercased text when one of its patterns occurs
    in it with word boundaries. *)
Definition variation_matched (text_lower : text) (vd : variation_data) : Prop :=
  exists p, In p (patterns vd) /\ search_bounded p text_lower = true.

(** Labels of the matched variations of [vs], in order. *)
Definition matched_labels (tl : text) (vs : list variation_data) : list text :=
  map variation (filter (fun vd => pattern_hit tl (patterns vd)) vs).

(** Labels recorded for attribute [a] over a whole configuration. *)
Definition cfg_labels (tl a : text) (cfg : config) : list text :=
  flat_map (fun ae => if text_eqb (fst ae) a then matched_labels tl (snd ae) else []) cfg.

(** The entry of a [defaultdict(list)] after appending [l] to it. *)
Definition app_opt (o : option (list text)) (l : list text) : option (list text) :=
  match o, l with
  | None, [] => None
  | None, _ => Some l
  | Some x, _ => Some (x ++ l)
  end.

(** The order [sorted] uses, as a relation. *)
Definition text_le (x y : text) : Prop := text_leb x y = true.

(** A configuration whose variations come in non-sorted order. *)
Definition bivolt_config : config :=
  [(txt "Voltagem", [{| variation := txt "220v"; patterns := [txt "220v"; txt "220 v"] |};
                     {| variation := txt "110v"; patterns := [txt "110v"; txt "110 v"] |}])].

(** Occurrences of [w] in [xs]. *)
Definition count_text (w : text) (xs : list text) : nat :=
  length (filter (fun x => text_eqb x w) xs).

(** Position of the first occurrence of [w] in [xs]. *)
Fixpoint first_index (w : text) (xs : list text) : nat :=
  match xs with
  | [] => 0
  | x :: xs' => if text_eqb x w then 0 else S (first_index w xs')
  end.

(** The distinct words of [xs] in order of first occurrence. *)
Definition uniq (xs : list text) : list text :=
  fold_left (fun acc w => if mem w acc then acc else acc ++ [w]) xs [].

(** The order of the frequency table: higher count first, and among equal
    counts the word met first in [xs]. *)
Definition freq_before (xs : list text) (p q : text * nat) : Prop :=
  snd q < snd p \/ (snd p = snd q /\ first_index (fst p) xs < first_index (fst q) xs).

(** ** Further code of [main.py] and [app.py] *)

(** [str(z)] of a non-negative integer: its decimal digits. *)
Fixpoint digits_rev (fuel n : nat) : text :=
  match fuel with
  | 0 => []
  | S f => N.of_nat (48 + n mod 10) :: (if n / 10 =? 0 then [] else digits_rev f (n / 10))
  end.

(** [str(v)] of a cell value. *)
Definition py_str (v : pyval) : text :=
  match v with
  | PyNone => txt "None"
  | PyNaN => txt "nan"
  | PyInt z => rev (digits_rev (S z) z)
  | PyStr s => s
  end.

(** [pd.notna(v)] *)
Definition notna (v : pyval) : bool :=
  match v with PyNone | PyNaN => false | _ => true end.

(** [s.split(sep)] with an explicit separator: never an empty list. *)
Fixpoint split_sep_aux (sep : char) (cur : text) (s : text) : list text :=
  match s with
  | [] => [rev cur]
  | c :: s' => if (c =? sep)%N then rev cur :: split_sep_aux sep [] s'
               else split_sep_aux sep (c :: cur) s'
  end.

Definition split_sep (sep : char) (s : text) : list text := split_sep_aux sep [] s.

(** The regex class [[a-zA-Z0-9áéíóúÁÉÍÓÚãõâêîôûàèìòùç]] of [app.py] line 118. *)
Definition app_word_class (c : char) : bool :=
  (((97 <=? c) && (c <=? 122)) || ((65 <=? c) && (c <=? 90)) || ((48 <=? c) && (c <=? 57))
  || existsb (N.eqb c) [225; 233; 237; 243; 250; 193; 201; 205; 211; 218; 227; 245;
                        226; 234; 238; 244; 251; 224; 232; 236; 242; 249; 231])%N.

Fixpoint drop_non_app_class (s : text) : text :=
  match s with
  | c :: s' => if app_word_class c then s else drop_non_app_class s'
  | [] => []
  end.

(** [extract_first_word] of [app.py] (lines 112-119). *)
Definition app_extract_first_word (v : pyval) : outcome :=
  match v with
  | PyNone | PyNaN => NoWord
  | _ =>
      let text0 := strip (py_str v) in
      match text0 with
      | [] => NoWord
      | _ =>
          match split_sep 32%N (drop_non_app_class text0) with
          | [] => IndexError
          | first_word :: _ => match first_word with [] => NoWord | _ => Word first_word end
          end
      end
  end.

(** The list [first_words] built by [analyze_first_words] ([app.py] lines
    121-126). *)
Fixpoint app_first_words (stopwords : list text) (col : list pyval) : list text :=
  match col with
  | [] => []
  | v :: col' =>
      match app_extract_first_word v with
      | Word word =>
          if negb (is_nil word) && negb (mem (lower word) stopwords) && (3 <=? length word)
          then lower word :: app_first_words stopwords col'
          else app_first_words stopwords col'
      | _ => app_first_words stopwords col'
      end
  end.

(** [analyze_first_words] ([app.py] lines 121-127). *)
Definition analyze_first_words (stopwords : list text) (col : list pyval) : list (text * nat) :=
  most_common (app_first_words stopwords col).

(** [load_ignore_words] ([main.py] lines 118-128) after a successful
    [read_excel]: [None] stands for a sheet without the column. *)
Definition load_ignore_words (column : option (list pyval)) : list text :=
  match column with
  | None => []
  | Some col =>
      map (fun v => lower (strip (py_str v)))
          (filter (fun v => negb (is_nil (strip (py_str v)))) col)
  end.

(** The button "Adicionar" of [main.py] (lines 239-242):
    [custom_stopwords.add(new_stopword.strip().lower())] when the input is
    not empty. *)
Definition add_custom_stopword (custom : list text) (new_stopword : text) : list text :=
  if is_nil new_stopword then custom else lower (strip new_stopword) :: custom.

(** [ignore_phrases.update(custom_stopwords)] ([main.py] lines 259-262). *)
Definition all_ignore_phrases (loaded custom : list text) : list text := loaded ++ custom.

(** One row of the attribute sheet: the cells ["Atributo"] and
    ["Variações"] (text, or [None] when empty) and
    ["Padrões de reconhecimento"]. *)
Record config_row := {
  row_attribute : option text;
  row_variation : option text;
  row_patterns : pyval
}.

(** [[p.strip().lower() for p in str(cell).split(",")]] *)
Definition parse_patterns (cell : pyval) : list text :=
  map (fun p => lower (strip p)) (split_sep 44%N (py_str cell)).

(** [config_dict[attribute].append(...)] on a [defaultdict(list)]. *)
Fixpoint cfg_append (k : text) (vd : variation_data) (m : config) : config :=
  match m with
  | [] => [(k, [vd])]
  | (k', vds) :: m' =>
      if text_eqb k' k then (k', vds ++ [vd]) :: m' else (k', vds) :: cfg_append k vd m'
  end.

Fixpoint load_config_rows (rows : list config_row) (m : config) : config :=
  match rows with
  | [] => m
  | r :: rows' =>
      match row_attribute r, row_variation r with
      | Some a, Some v =>
          if notna (row_patterns r) then
            load_config_rows rows'
              (cfg_append a {| variation := v; patterns := parse_patterns (row_patterns r) |} m)
          else load_config_rows rows' m
      | _, _ => load_config_rows rows' m
      end
  end.

(** [load_config] ([main.py] lines 87-104) after a successful [read_excel]. *)
Definition load_config (rows : list config_row) : config := load_config_rows rows [].

(** The variations a row contributes to attribute [a]. *)
Definition row_variation_for (a : text) (r : config_row) : list variation_data :=
  match row_attribute r, row_variation r with
  | Some a', Some v =>
      if text_eqb a' a && notna (row_patterns r)
      then [{| variation := v; patterns := parse_patterns (row_patterns r) |}] else []
  | _, _ => []
  end.

(** [d[k] = v] on a dict: the value is replaced in place, a new key goes at
    the end. *)
Fixpoint dict_set {V : Type} (k : text) (v : V) (m : list (text * V)) : list (text * V) :=
  match m with
  | [] => [(k, v)]
  | (k', v') :: m' => if text_eqb k' k then (k', v) :: m' else (k', v') :: dict_set k v m'
  end.

(** [load_categories] ([main.py] lines 106-116):
    [dict(zip(words.str.lower(), categories))]. *)
Definition load_categories (rows : list (text * text)) : list (text * text) :=
  fold_left (fun m r => dict_set (lower (fst r)) (snd r) m) rows [].

(** The column ["Categoria"] ([main.py] lines 300-303) for a first word. *)
Definition category_of (categories : list (text * text)) (first_word : outcome) : option text :=
  match first_word with
  | Word w => lookup (lower w) categories
  | _ => None
  end.

(** Sum of the counts of a frequency table. *)
Definition total_count (table : list (text * nat)) : nat := fold_right plus 0 (map snd table).

(** * Properties *)

(** ** Text equality, prefixes and case *)

Lemma text_eqb_eq : forall a b, text_eqb a b = true <-> a = b.
Proof.
  induction a as [|x a IH]; destruct b as [|y b]; simpl; try (split; congruence).
  rewrite andb_true_iff, IH, N.eqb_eq. split; [intros [-> ->]; reflexivity|].
  intros H; injection H; auto.
Qed.

Lemma text_eqb_refl : forall a, text_eqb a a = true.
Proof. intros a. apply text_eqb_eq. reflexivity. Qed.

Lemma mem_In : forall w l, mem w l = true <-> In w l.
Proof.
  intros w l. unfold mem. rewrite existsb_exists. split.
  - intros [x [Hx He]]. apply text_eqb_eq in He. subst. exact Hx.
  - intros H. exists w. split; [exact H | apply text_eqb_refl].
Qed.

Lemma prefixb_app : forall p s, prefixb p s = true <-> exists z, s = p ++ z.
Proof.
  induction p as [|x p IH]; destruct s as [|y s]; simpl.
  - split; [exists []; reflexivity | reflexivity].
  - split; [exists (y :: s); reflexivity | reflexivity].
  - split; [discriminate | intros [z Hz]; discriminate].
  - rewrite andb_true_iff, IH, N.eqb_eq. split.
    + intros [-> [z ->]]. exists z. reflexivity.
    + intros [z Hz]. injection Hz as -> ->. split; [reflexivity | exists z; reflexivity].
Qed.

Lemma prefixb_trans : forall p w s, prefixb p w = true -> prefixb w s = true -> prefixb p s = true.
Proof.
  intros p w s H1 H2. apply prefixb_app in H1 as [z1 ->]. apply prefixb_app in H2 as [z2 ->].
  apply prefixb_app. exists (z1 ++ z2). rewrite app_assoc. reflexivity.
Qed.

Lemma lower_app : forall a b, lower (a ++ b) = lower a ++ lower b.
Proof. intros. apply map_app. Qed.

Lemma length_lower : forall a, length (lower a) = length a.
Proof. intros. apply length_map. Qed.

(** ** Stripping *)

Lemma lstrip_suffix : forall s, exists a, s = a ++ lstrip s.
Proof.
  induction s as [|c s [a Ha]]; simpl.
  - exists []. reflexivity.
  - destruct (is_space c).
    + exists (c :: a). simpl. f_equal. exact Ha.
    + exists []. reflexivity.
Qed.

Lemma lstrip_head : forall s c r, lstrip s = c :: r -> is_space c = false.
Proof.
  induction s as [|d s IH]; simpl; [discriminate|].
  intros c r. destruct (is_space d) eqn:E; [apply IH|].
  intros H. injection H as -> ->. exact E.
Qed.

Lemma lstrip_nil : forall s, lstrip s = [] -> forallb is_space s = true.
Proof.
  induction s as [|c s IH]; simpl; [reflexivity|].
  destruct (is_space c); simpl; [exact IH | discriminate].
Qed.

Lemma lstrip_idem : forall s, lstrip (lstrip s) = lstrip s.
Proof.
  induction s as [|c s IH]; simpl; [reflexivity|].
  destruct (is_space c) eqn:E; [exact IH|]. simpl. rewrite E. reflexivity.
Qed.

Lemma lstrip_nonspace : forall c s, is_space c = false -> lstrip (c :: s) = c :: s.
Proof. intros c s E. simpl. rewrite E. reflexivity. Qed.

Lemma rstrip_prefix : forall s, exists b, s = rstrip s ++ b.
Proof.
  intros s. destruct (lstrip_suffix (rev s)) as [a Ha].
  exists (rev a). unfold rstrip. rewrite <- rev_app_distr, <- Ha, rev_involutive.
  reflexivity.
Qed.

Lemma strip_infix : forall s, exists a b, s = a ++ strip s ++ b.
Proof.
  intros s. destruct (lstrip_suffix s) as [a Ha].
  destruct (rstrip_prefix (lstrip s)) as [b Hb].
  exists a, b. unfold strip. rewrite <- Hb. exact Ha.
Qed.

Lemma length_strip : forall s, length (strip s) <= length s.
Proof.
  intros s. destruct (strip_infix s) as [a [b Hab]].
  rewrite Hab at 2. rewrite !length_app. lia.
Qed.

Lemma rstrip_cons_nonspace : forall c r, is_space c = false -> exists e, rstrip (c :: r) = c :: e.
Proof.
  intros c r E. destruct (rstrip_prefix (c :: r)) as [b Hb].
  destruct (rstrip (c :: r)) as [|d e] eqn:R.
  - exfalso. unfold rstrip in R. apply (f_equal (@rev char)) in R.
    rewrite rev_involutive in R. simpl in R. apply lstrip_nil in R.
    simpl in R. rewrite forallb_app in R. simpl in R. rewrite E in R.
    rewrite !andb_false_r in R. discriminate.
  - simpl in Hb. injection Hb as -> _. exists e. reflexivity.
Qed.

Lemma strip_head : forall s c r, strip s = c :: r -> is_space c = false.
Proof.
  intros s c r H. unfold strip in H.
  destruct (lstrip s) as [|d l] eqn:L.
  - unfold rstrip in H. simpl in H. discriminate.
  - pose proof (lstrip_head _ _ _ L) as Hd.
    destruct (rstrip_cons_nonspace d l Hd) as [e He]. rewrite He in H.
    injection H as -> _. exact Hd.
Qed.

Lemma strip_idem : forall s, strip (strip s) = strip s.
Proof.
  intros s. unfold strip at 1.
  assert (Hl : lstrip (strip s) = strip s).
  { destruct (strip s) as [|c r] eqn:E; [reflexivity|].
    apply lstrip_nonspace. exact (strip_head _ _ _ E). }
  rewrite Hl. unfold strip, rstrip. rewrite rev_involutive, lstrip_idem. reflexivity.
Qed.

(** ** Tokens *)

Lemma in_word_class_not_space : forall c, in_word_class c = true -> is_space c = false.
Proof.
  intros c H. unfold in_word_class, is_space in *.
  repeat rewrite orb_true_iff in H. repeat rewrite andb_true_iff in H.
  rewrite !N.leb_le in H.
  repeat (rewrite orb_false_iff). repeat rewrite andb_false_iff.
  rewrite !N.leb_gt, !N.eqb_neq. lia.
Qed.

Lemma split_aux_tokens : forall s cur x,
  no_space cur -> In x (split_aux cur s) -> x <> [] /\ no_space x.
Proof.
  unfold no_space.
  induction s as [|c s IH]; intros cur x Hcur Hin; simpl in Hin.
  - destruct cur as [|d cur]; [contradiction|].
    destruct Hin as [<- | []]. split.
    + intros H. apply (f_equal (@length char)) in H. simpl in H.
      rewrite length_app in H. simpl in H. lia.
    + apply Forall_rev. exact Hcur.
  - destruct (is_space c) eqn:E.
    + destruct cur as [|d cur].
      * eapply IH; [constructor | exact Hin].
      * destruct Hin as [<- | Hin].
        -- split.
           ++ intros H. apply (f_equal (@length char)) in H. simpl in H.
              rewrite length_app in H. simpl in H. lia.
           ++ apply Forall_rev. exact Hcur.
        -- eapply IH; [constructor | exact Hin].
    + apply (IH (c :: cur) x); [constructor; [exact E | exact Hcur] | exact Hin].
Qed.

Lemma split_aux_head : forall s cur x rest,
  split_aux cur s = x :: rest ->
  (cur <> [] \/ exists c s', s = c :: s' /\ is_space c = false) ->
  exists b, rev cur ++ s = x ++ b.
Proof.
  induction s as [|c s IH]; intros cur x rest H Hc; cbn [split_aux] in H.
  - destruct cur as [|d cur].
    + destruct Hc as [Hc | [c [s' [Hs _]]]]; [contradiction | discriminate].
    + injection H as <- _. exists []. reflexivity.
  - destruct (is_space c) eqn:E.
    + destruct cur as [|d cur].
      * destruct Hc as [Hc | [c' [s' [Hs Hsp]]]]; [contradiction|].
        injection Hs as -> _. rewrite E in Hsp. discriminate.
      * injection H as <- _. exists (c :: s). reflexivity.
    + assert (Hne : c :: cur <> []) by discriminate.
      destruct (IH (c :: cur) x rest H (or_introl Hne)) as [b Hb].
      exists b. cbn [rev] in Hb. rewrite <- app_assoc in Hb. exact Hb.
Qed.

Lemma drop_non_class_split : forall s,
  exists r, s = r ++ drop_non_class s /\ Forall (fun c => in_word_class c = false) r.
Proof.
  induction s as [|c s [r [Hr Hf]]]; simpl.
  - exists []. split; [reflexivity | constructor].
  - destruct (in_word_class c) eqn:E.
    + exists []. split; [reflexivity | constructor].
    + exists (c :: r). split; [simpl; f_equal; exact Hr | constructor; assumption].
Qed.

Lemma drop_non_class_head : forall s c d, drop_non_class s = c :: d -> in_word_class c = true.
Proof.
  induction s as [|e s IH]; simpl; [discriminate|].
  intros c d. destruct (in_word_class e) eqn:E; [|apply IH].
  intros H. injection H as -> _. exact E.
Qed.

(** The first token of the text without its leading non-alphanumeric
    characters is a prefix of that text. *)
Lemma first_token_prefix : forall s w rest,
  split (drop_non_class s) = w :: rest -> exists b, drop_non_class s = w ++ b.
Proof.
  intros s w rest H. unfold split in H.
  apply (split_aux_head _ [] w rest H).
  right. destruct (drop_non_class s) as [|c d] eqn:D; [discriminate|].
  exists c, d. split; [reflexivity|].
  apply in_word_class_not_space. eapply drop_non_class_head. exact D.
Qed.

(** ** Sorting *)

Lemma insert_desc_perm : forall {A} (key : A -> nat) x l,
  Permutation (insert_desc key x l) (x :: l).
Proof.
  induction l as [|y l IH]; simpl; [reflexivity|].
  destruct (key y <=? key x); [reflexivity|].
  rewrite IH. apply perm_swap.
Qed.

Lemma sort_desc_perm : forall {A} (key : A -> nat) l, Permutation (sort_desc key l) l.
Proof.
  induction l as [|x l IH]; simpl; [reflexivity|].
  rewrite insert_desc_perm, IH. reflexivity.
Qed.

(** ** Shape of a word result *)

Lemma finish_first_word_word : forall sw t w,
  finish_first_word sw t = Some (Word w) ->
  (exists rest, split (drop_non_class t) = w :: rest)
  /\ w <> [] /\ 3 <= length w /\ ~ In (lower w) sw.
Proof.
  intros sw t w H. unfold finish_first_word in H.
  destruct (split (drop_non_class t)) as [|fw rest] eqn:S; [discriminate|].
  destruct (negb (is_nil sw) && negb (is_nil fw) && mem (lower fw) sw) eqn:E1; [discriminate|].
  destruct (negb (is_nil fw) && (length fw <? 3)) eqn:E2; [discriminate|].
  destruct (is_nil fw) eqn:E3; simpl in H; [discriminate|].
  injection H as <-. destruct fw as [|c fw]; [discriminate|].
  split; [exists rest; reflexivity|]. split; [discriminate|].
  cbn [is_nil negb andb] in E1, E2. split.
  - apply Nat.ltb_ge. exact E2.
  - intros Hin. destruct sw as [|s0 sw]; [contradiction|].
    apply mem_In in Hin. rewrite Hin in E1. discriminate.
Qed.

(** ** One call of [extract_first_word] *)

Lemma extract_first_word_cases : forall n sw ip s,
  (strip s = [] /\ extract_first_word (S n) sw ip s = Some NoWord)
  \/ (strip s <> []
      /\ (forall p, In p ip -> prefixb (lower p) (lower (strip s)) = false)
      /\ extract_first_word (S n) sw ip s = finish_first_word sw (strip s))
  \/ (exists p, In p ip /\ prefixb (lower p) (lower (strip s)) = true /\ strip s <> []
      /\ ((strip (skipn (length p) (strip s)) = []
           /\ extract_first_word (S n) sw ip s = Some NoWord)
          \/ (strip (skipn (length p) (strip s)) <> []
              /\ extract_first_word (S n) sw ip s
                 = extract_first_word n sw ip (strip (skipn (length p) (strip s)))))).
Proof.
  intros n sw ip s. cbn [extract_first_word].
  destruct (strip s) as [|c r] eqn:St; [left; split; reflexivity|].
  right. assert (Hne : c :: r <> []) by discriminate.
  destruct (is_nil ip) eqn:Ip; cbn [negb].
  - left. split; [exact Hne|]. split; [|reflexivity].
    destruct ip; [contradiction | discriminate].
  - destruct (find (fun phrase => prefixb (lower phrase) (lower (c :: r)))
                   (sort_desc (length (A:=char)) ip)) as [p|] eqn:F.
    + right. apply find_some in F as [Hin Hp].
      exists p. split; [eapply Permutation_in; [apply sort_desc_perm | exact Hin]|].
      split; [exact Hp|]. split; [exact Hne|].
      destruct (strip (skipn (length p) (c :: r))) as [|d e];
        [left; split; reflexivity | right; split; [discriminate | reflexivity]].
    + left. split; [exact Hne|]. split; [|reflexivity].
      intros p Hp. apply (find_none _ _ F).
      eapply Permutation_in; [symmetry; apply sort_desc_perm | exact Hp].
Qed.

(** ** C10 *)

(** C10: every word returned by [extract_first_word] (at any recursion depth
    and whatever the stopword and ignore-phrase sets) is non-empty, at least
    3 characters long, contains no whitespace, and its lowercase form is not
    a stopword. *)
Theorem extract_first_word_output_invariant : forall fuel sw ip s w,
  extract_first_word fuel sw ip s = Some (Word w) ->
  w <> [] /\ 3 <= length w /\ ~ In (lower w) sw /\ no_space w.
Proof.
  induction fuel as [|n IH]; intros sw ip s w H; [discriminate|].
  destruct (extract_first_word_cases n sw ip s)
    as [[_ E] | [[_ [_ E]] | [p [_ [_ [_ [[_ E] | [_ E]]]]]]]];
    rewrite E in H; try discriminate.
  - apply finish_first_word_word in H as [[rest Hs] [Hne [Hlen Hsw]]].
    split; [exact Hne|]. split; [exact Hlen|]. split; [exact Hsw|].
    unfold split in Hs.
    apply (split_aux_tokens (drop_non_class (strip s)) [] w); [constructor|].
    rewrite Hs. left. reflexivity.
  - exact (IH _ _ _ _ H).
Qed.

Lemma extract_first_word_output_invariant_witness :
  extract_first_word 3 [txt "de"] [txt "cota"] (txt "cota  Parafuso 110v") = Some (Word (txt "Parafuso"))
  /\ txt "Parafuso" <> [] /\ 3 <= length (txt "Parafuso") /\ ~ In (lower (txt "Parafuso")) [txt "de"]
  /\ no_space (txt "Parafuso").
Proof.
  assert (H : extract_first_word 3 [txt "de"] [txt "cota"] (txt "cota  Parafuso 110v")
              = Some (Word (txt "Parafuso"))) by (vm_compute; reflexivity).
  split; [exact H|]. exact (extract_first_word_output_invariant _ _ _ _ _ H).
Defined.

(** ** C9 *)

Lemma extract_first_word_terminates : forall m sw ip s,
  (forall p, In p ip -> p <> []) -> length s < m ->
  extract_first_word m sw ip s <> None.
Proof.
  induction m as [|n IH]; intros sw ip s Hne Hlen; [lia|].
  destruct (extract_first_word_cases n sw ip s)
    as [[_ E] | [[_ [_ E]] | [p [Hp [_ [Hs [[_ E] | [Hr E]]]]]]]]; rewrite E.
  - discriminate.
  - unfold finish_first_word. destruct (split _) as [|fw rest]; [discriminate|].
    repeat match goal with |- context [if ?b then _ else _] => destruct b end; discriminate.
  - discriminate.
  - apply IH; [exact Hne|].
    pose proof (length_strip (skipn (length p) (strip s))) as L1.
    rewrite length_skipn in L1. pose proof (length_strip s) as L2.
    assert (0 < length p) by (destruct p; [contradiction (Hne [] Hp); reflexivity | simpl; lia]).
    assert (0 < length (strip s)) by (destruct (strip s); [contradiction | simpl; lia]).
    lia.
Qed.

Lemma extract_first_word_empty_phrase_no_word : forall n sw ip s,
  In [] ip ->
  extract_first_word n sw ip s = None \/ extract_first_word n sw ip s = Some NoWord.
Proof.
  induction n as [|n IH]; intros sw ip s Hin; [left; reflexivity|].
  destruct (extract_first_word_cases n sw ip s)
    as [[_ E] | [[_ [Hno _]] | [p [_ [_ [_ [[_ E] | [_ E]]]]]]]].
  - right. exact E.
  - specialize (Hno [] Hin). discriminate.
  - right. exact E.
  - rewrite E. apply IH. exact Hin.
Qed.

Lemma extract_first_word_empty_phrase_diverges : forall n sw ip s,
  In [] ip -> strip s <> [] ->
  (forall p, In p ip -> p <> [] -> prefixb (lower p) (lower (strip s)) = false) ->
  extract_first_word n sw ip s = None.
Proof.
  induction n as [|n IH]; intros sw ip s Hin Hs Hno; [reflexivity|].
  destruct (extract_first_word_cases n sw ip s)
    as [[Hs' _] | [[_ [Hno' _]] | [p [Hp [Hm [_ [[Hr _] | [_ E]]]]]]]].
  - contradiction.
  - specialize (Hno' [] Hin). discriminate.
  - destruct p as [|c p].
    + cbn [length skipn] in Hr. rewrite strip_idem in Hr. contradiction.
    + rewrite (Hno (c :: p) Hp ltac:(discriminate)) in Hm. discriminate.
  - destruct p as [|c p].
    + cbn [length skipn] in E. rewrite E. rewrite strip_idem.
      apply IH; [exact Hin | rewrite strip_idem; exact Hs |]. rewrite strip_idem. exact Hno.
    + rewrite (Hno (c :: p) Hp ltac:(discriminate)) in Hm. discriminate.
Qed.

(** C9 (as amended): with only non-empty ignore-phrases, extraction of [s]
    ends within [length s + 1] calls; with the empty phrase in the set it
    never yields a word (it diverges or returns no word), and it diverges
    on every non-empty text that no non-empty phrase starts. *)
Theorem extract_first_word_termination_spec :
  (forall sw ip s, (forall p, In p ip -> p <> []) ->
     extract_first_word (S (length s)) sw ip s <> None)
  /\ (forall n sw ip s, In [] ip ->
        extract_first_word n sw ip s = None \/ extract_first_word n sw ip s = Some NoWord)
  /\ (forall n sw ip s, In [] ip -> strip s <> [] ->
        (forall p, In p ip -> p <> [] -> prefixb (lower p) (lower (strip s)) = false) ->
        extract_first_word n sw ip s = None).
Proof.
  split; [|split].
  - intros sw ip s Hne. apply extract_first_word_terminates; [exact Hne | lia].
  - exact extract_first_word_empty_phrase_no_word.
  - exact extract_first_word_empty_phrase_diverges.
Qed.

Lemma extract_first_word_termination_spec_witness :
  extract_first_word 5 [] [txt "ab"] (txt "ab c") <> None
  /\ extract_first_word 7 [] [[]; txt "ab"] (txt "xyz") = None.
Proof.
  destruct extract_first_word_termination_spec as [H1 [_ H3]]. split.
  - apply (H1 [] [txt "ab"] (txt "ab c")).
    intros p [<- | []]. discriminate.
  - apply H3.
    + simpl. left. reflexivity.
    + vm_compute. discriminate.
    + intros p [<- | [<- | []]] Hp; [contradiction Hp; reflexivity | vm_compute; reflexivity].
Defined.

(** C9: the empty phrase does not make every non-empty text diverge:
    with ignore-phrases [{"", "ab"}] the text ["ab"] returns no word. *)
Lemma extract_first_word_empty_phrase_counterexample :
  ~ (forall n, extract_first_word n [] [[]; txt "ab"] (txt "ab") = None).
Proof. intros H. specialize (H 2). vm_compute in H. discriminate. Qed.

(** ** C4 *)

(** C4 (as amended): if the extracted word [w] starts with an ignore-phrase,
    then in the input [w] comes right after a run of characters outside
    [[a-zA-ZÀ-ÿ0-9]] whose first character is not whitespace (as ["-"] in
    ["-cota abc"]); the phrase stripping itself never leaves a word that
    starts with an ignore-phrase. *)
Theorem extract_first_word_phrase_prefix_origin : forall n sw ip s w p,
  extract_first_word n sw ip s = Some (Word w) -> In p ip ->
  prefixb (lower p) (lower w) = true ->
  exists a c r b, s = a ++ (c :: r) ++ w ++ b /\ is_space c = false
    /\ Forall (fun x => in_word_class x = false) (c :: r).
Proof.
  induction n as [|n IH]; intros sw ip s w p H Hp Hpw; [discriminate|].
  destruct (strip_infix s) as [a [b Hab]].
  destruct (extract_first_word_cases n sw ip s)
    as [[_ E] | [[Hne [Hno E]] | [q [_ [_ [_ [[_ E] | [_ E]]]]]]]];
    rewrite E in H; try discriminate.
  - apply finish_first_word_word in H as [[rest Hs] _].
    destruct (first_token_prefix _ _ _ Hs) as [b' Hb'].
    destruct (drop_non_class_split (strip s)) as [r [Hr Hf]].
    rewrite Hb' in Hr. destruct r as [|c r].
    + exfalso. specialize (Hno p Hp). simpl in Hr. rewrite Hr, lower_app in Hno.
      rewrite (prefixb_trans _ _ _ Hpw) in Hno; [discriminate|].
      apply prefixb_app. exists (lower b'). reflexivity.
    + exists a, c, r, (b' ++ b). split; [|split].
      * rewrite Hab, Hr. rewrite <- !app_assoc. reflexivity.
      * apply (strip_head s c (r ++ w ++ b')). exact Hr.
      * exact Hf.
  - destruct (IH _ _ _ _ _ H Hp Hpw) as [a' [c [r [b' [Hs' [Hc Hf]]]]]].
    destruct (strip_infix (skipn (length q) (strip s))) as [a2 [b2 Hab2]].
    exists (a ++ firstn (length q) (strip s) ++ a2 ++ a'), c, r, (b' ++ b2 ++ b).
    split; [|split; assumption].
    rewrite Hab at 1. rewrite <- (firstn_skipn (length q) (strip s)) at 1.
    rewrite Hab2 at 1. rewrite Hs'. rewrite <- !app_assoc. reflexivity.
Qed.

Lemma extract_first_word_phrase_prefix_origin_witness :
  exists a c r b, txt "-cota abc" = a ++ (c :: r) ++ txt "cota" ++ b /\ is_space c = false
    /\ Forall (fun x => in_word_class x = false) (c :: r).
Proof.
  apply (extract_first_word_phrase_prefix_origin 3 [] [txt "cota"] (txt "-cota abc")
           (txt "cota") (txt "cota")).
  - vm_compute. reflexivity.
  - left. reflexivity.
  - vm_compute. reflexivity.
Defined.

(** C4: re-running extraction on an extracted word can strip an
    ignore-phrase: with the phrase ["cota"], ["-cota abc"] yields ["cota"],
    and extraction of ["cota"] strips the phrase and yields no word. *)
Lemma extract_first_word_not_idempotent :
  extract_first_word 3 [] [txt "cota"] (txt "-cota abc") = Some (Word (txt "cota"))
  /\ extract_first_word 3 [] [txt "cota"] (txt "cota") = Some NoWord.
Proof. split; vm_compute; reflexivity. Qed.

(** ** C2 *)

Lemma lstrip_app : forall l1 l2,
  lstrip (l1 ++ l2) = match lstrip l1 with [] => lstrip l2 | _ => lstrip l1 ++ l2 end.
Proof.
  induction l1 as [|c l1 IH]; intros l2; [reflexivity|].
  cbn [app lstrip]. destruct (is_space c) eqn:E; [apply IH | reflexivity].
Qed.

Lemma rstrip_app_nonspace : forall u x,
  u <> [] -> no_space u -> rstrip (u ++ x) = u ++ rstrip x.
Proof.
  intros u x Hu Hns. unfold rstrip. rewrite rev_app_distr, lstrip_app.
  assert (Hl : lstrip (rev u) = rev u).
  { destruct (rev u) as [|d e] eqn:R.
    - apply (f_equal (@rev char)) in R. rewrite rev_involutive in R. contradiction.
    - apply lstrip_nonspace. unfold no_space in Hns. rewrite Forall_forall in Hns.
      apply Hns. apply in_rev. rewrite R. left. reflexivity. }
  destruct (lstrip (rev x)) as [|d e] eqn:L.
  - rewrite Hl. simpl. rewrite rev_involutive, app_nil_r. reflexivity.
  - rewrite rev_app_distr, rev_involutive. reflexivity.
Qed.

Lemma split_aux_app_token : forall w cur R,
  no_space w -> split_aux cur (w ++ R) = split_aux (rev w ++ cur) R.
Proof.
  induction w as [|c w IH]; intros cur R Hns; [reflexivity|].
  inversion Hns as [|? ? Hc Hw]; subst.
  cbn [app split_aux]. rewrite Hc, IH by exact Hw. cbn [rev]. rewrite <- app_assoc. reflexivity.
Qed.

(** C2 (as amended): a description that starts with a stopword [w] (of the
    stopword set after lowercasing, starting with a character of
    [[a-zA-ZÀ-ÿ0-9]], without whitespace) followed by whitespace yields no
    word, whatever follows, when no ignore-phrase starts the description:
    the stopword test applies to the first token only. *)
Theorem extract_first_word_leading_stopword : forall n sw ip c w' ws v,
  In (lower (c :: w')) sw -> in_word_class c = true -> no_space (c :: w') ->
  ws <> [] -> forallb is_space ws = true ->
  (forall p, In p ip -> prefixb (lower p) (lower ((c :: w') ++ ws ++ v)) = false) ->
  extract_first_word (S n) sw ip ((c :: w') ++ ws ++ v) = Some NoWord.
Proof.
  intros n sw ip c w' ws v Hsw Hc Hns Hws Hsp Hno.
  set (w := c :: w') in *. set (R := rstrip (ws ++ v)).
  assert (Hst : strip (w ++ ws ++ v) = w ++ R).
  { unfold strip. subst w. cbn [app]. rewrite lstrip_nonspace by
      (apply in_word_class_not_space; exact Hc).
    apply (rstrip_app_nonspace (c :: w')); [discriminate | exact Hns]. }
  assert (HR : R = [] \/ exists d R', R = d :: R' /\ is_space d = true).
  { destruct R as [|d R'] eqn:ER; [left; reflexivity|]. right. exists d, R'.
    split; [reflexivity|].
    destruct (rstrip_prefix (ws ++ v)) as [b Hb]. fold R in Hb. rewrite ER in Hb.
    destruct ws as [|e ws]; [contradiction|]. cbn [app] in Hb. injection Hb as -> _.
    cbn [forallb] in Hsp. apply andb_true_iff in Hsp. apply Hsp. }
  destruct (extract_first_word_cases n sw ip (w ++ ws ++ v))
    as [[Hs' _] | [[_ [_ E]] | [p [Hp [Hm _]]]]].
  - rewrite Hst in Hs'. discriminate.
  - rewrite E, Hst. unfold finish_first_word.
    assert (Hd : drop_non_class (w ++ R) = w ++ R).
    { subst w. cbn [app drop_non_class]. rewrite Hc. reflexivity. }
    rewrite Hd. unfold split. rewrite split_aux_app_token by exact Hns. rewrite app_nil_r.
    assert (Hsplit : exists rest, split_aux (rev w) R = w :: rest).
    { destruct (rev w) as [|e rw] eqn:Rw.
      { apply (f_equal (@rev char)) in Rw. rewrite rev_involutive in Rw. discriminate. }
      destruct HR as [-> | [d [R' [-> Hd']]]].
      - exists []. cbn [split_aux]. rewrite <- Rw, rev_involutive. reflexivity.
      - exists (split_aux [] R'). cbn [split_aux]. rewrite Hd'. rewrite <- Rw, rev_involutive.
        reflexivity. }
    destruct Hsplit as [rest ->].
    apply mem_In in Hsw. rewrite Hsw.
    destruct sw; [cbn [mem existsb] in Hsw; discriminate|]. reflexivity.
  - exfalso. rewrite Hst in Hm. specialize (Hno p Hp).
    rewrite (prefixb_trans _ _ _ Hm) in Hno; [discriminate|].
    apply prefixb_app. destruct (rstrip_prefix (ws ++ v)) as [b Hb].
    exists (lower b). rewrite <- lower_app. f_equal. rewrite Hb at 1. fold R.
    rewrite app_assoc. reflexivity.
Qed.

Lemma extract_first_word_leading_stopword_witness :
  extract_first_word 3 DEFAULT_STOPWORDS [] (txt "de parafuso") = Some NoWord.
Proof.
  apply (extract_first_word_leading_stopword 2 DEFAULT_STOPWORDS [] 100%N (txt "e")
           (txt " ") (txt "parafuso")).
  - vm_compute. left. reflexivity.
  - vm_compute. reflexivity.
  - repeat constructor.
  - discriminate.
  - vm_compute. reflexivity.
  - intros p [].
Defined.

(** C2: a stopword followed by a valid word does not yield the valid word:
    ["de parafuso"] with the default stopwords yields no word. *)
Lemma extract_first_word_stopword_then_word :
  extract_first_word 3 DEFAULT_STOPWORDS [] (txt "de parafuso") = Some NoWord
  /\ extract_first_word 3 DEFAULT_STOPWORDS [] (txt "de parafuso") <> Some (Word (txt "parafuso")).
Proof. split; vm_compute; [reflexivity | discriminate]. Qed.

(** ** C3 *)

Definition voltage_config : config :=
  [(txt "Voltagem", [{| variation := txt "110v"; patterns := [txt "110v"; txt "110 v"] |}])].

(** C3 (as amended): on ["Parafuso 110v sextavado"] with the default
    stopwords and no ignore-phrase, extraction returns ["Parafuso"] in its
    original case (its lowercase form is ["parafuso"]), and the matcher maps
    [Voltagem] to ["110v"]. *)
Theorem parafuso_example :
  (forall n, extract_first_word (S n) DEFAULT_STOPWORDS [] (txt "Parafuso 110v sextavado")
             = Some (Word (txt "Parafuso")))
  /\ lower (txt "Parafuso") = txt "parafuso"
  /\ find_matches (txt "Parafuso 110v sextavado") voltage_config
     = [(txt "Voltagem", txt "110v")].
Proof.
  split; [|split].
  - intros n. vm_compute. reflexivity.
  - vm_compute. reflexivity.
  - vm_compute. reflexivity.
Qed.

(** C3: the extracted word is not the lowercase ["parafuso"]. *)
Lemma parafuso_example_not_lowercase :
  extract_first_word 1 DEFAULT_STOPWORDS [] (txt "Parafuso 110v sextavado")
  <> Some (Word (txt "parafuso")).
Proof. vm_compute. discriminate. Qed.

(** ** C1 and C8 *)

(** C1: on a text with no character of [[a-zA-ZÀ-ÿ0-9]], such as ["!!!"],
    [split()[0]] is taken on an empty list and raises [IndexError], where the
    algorithm (no token, so none of length 3) gives no word. *)
Theorem extract_first_word_index_error :
  forall n sw, extract_first_word (S n) sw [] (txt "!!!") = Some IndexError.
Proof. intros n sw. vm_compute. reflexivity. Qed.

(** C8: [None] and [NaN] and non-string values give no word, but the
    string ["!!!"] makes [extract_first_word] raise [IndexError]. *)
Theorem extract_first_word_value_errors :
  (forall n sw ip z,
     extract_first_word_value n sw ip PyNone = Some NoWord
     /\ extract_first_word_value n sw ip PyNaN = Some NoWord
     /\ extract_first_word_value n sw ip (PyInt z) = Some NoWord)
  /\ (forall n sw, extract_first_word_value (S n) sw [] (PyStr (txt "!!!")) = Some IndexError).
Proof.
  split.
  - intros n sw ip z. repeat split.
  - intros n sw. vm_compute. reflexivity.
Qed.

(** ** C5 *)

Lemma pattern_hit_existsb : forall tl pats,
  pattern_hit tl pats = existsb (fun p => search_bounded p tl) pats.
Proof.
  induction pats as [|p pats IH]; [reflexivity|].
  cbn [pattern_hit existsb]. rewrite IH. destruct (search_bounded p tl); reflexivity.
Qed.

Lemma existsb_perm : forall {A} (f : A -> bool) l l',
  Permutation l l' -> existsb f l = existsb f l'.
Proof.
  intros A f l l' HP. induction HP; cbn [existsb].
  - reflexivity.
  - rewrite IHHP. reflexivity.
  - rewrite !orb_assoc, (orb_comm (f y)). reflexivity.
  - congruence.
Qed.

Lemma scan_variations_perm : forall tl a vs vs' m,
  Forall2 (fun vd vd' => variation vd = variation vd' /\ Permutation (patterns vd) (patterns vd'))
          vs vs' ->
  scan_variations tl a vs m = scan_variations tl a vs' m.
Proof.
  intros tl a vs vs' m H. revert m.
  induction H as [|vd vd' vs vs' [Hv Hp] _ IH]; intros m; [reflexivity|].
  cbn [scan_variations]. rewrite !pattern_hit_existsb, (existsb_perm _ _ _ Hp), Hv.
  apply IH.
Qed.

Lemma scan_config_perm : forall tl cfg cfg' m,
  same_up_to_pattern_order cfg cfg' -> scan_config tl cfg m = scan_config tl cfg' m.
Proof.
  intros tl cfg cfg' m H. revert m.
  induction H as [|[a vs] [a' vs'] cfg cfg' [Ha Hvs] _ IH]; intros m; [reflexivity|].
  cbn [fst snd] in Ha, Hvs. subst a'. cbn [scan_config].
  rewrite (scan_variations_perm _ _ _ _ _ Hvs). apply IH.
Qed.

(** C5: permuting the patterns of any variation does not change the output of
    [find_matches]; a variation is matched exactly when one of its patterns
    occurs in the lowercased text with word boundaries. *)
Theorem find_matches_pattern_order : forall s cfg cfg',
  same_up_to_pattern_order cfg cfg' ->
  find_matches s cfg = find_matches s cfg'
  /\ (forall vd, pattern_hit (lower s) (patterns vd) = true
                 <-> exists p, In p (patterns vd) /\ search_bounded p (lower s) = true).
Proof.
  intros s cfg cfg' H. split.
  - unfold find_matches.
    assert (Hn : is_nil cfg = is_nil cfg') by (destruct H; reflexivity).
    rewrite Hn, (scan_config_perm _ _ _ [] H). reflexivity.
  - intros vd. rewrite pattern_hit_existsb, existsb_exists. reflexivity.
Qed.

Lemma find_matches_pattern_order_witness :
  find_matches (txt "Motor 110 V") voltage_config
  = find_matches (txt "Motor 110 V")
      [(txt "Voltagem", [{| variation := txt "110v"; patterns := [txt "110 v"; txt "110v"] |}])].
Proof.
  apply find_matches_pattern_order.
  repeat constructor.
Defined.

(** ** C6 *)

Lemma app_opt_app : forall o l1 l2, app_opt (app_opt o l1) l2 = app_opt o (l1 ++ l2).
Proof.
  intros [x|] [|y l1] l2; cbn [app_opt app]; try reflexivity.
  - rewrite app_nil_r. reflexivity.
  - rewrite <- app_assoc. reflexivity.
Qed.

Lemma lookup_dd_append : forall a k v m,
  lookup a (dd_append k v m) = if text_eqb k a then app_opt (lookup a m) [v] else lookup a m.
Proof.
  intros a k v m. induction m as [|[k' vs] m IH]; cbn [dd_append lookup].
  - destruct (text_eqb k a); reflexivity.
  - destruct (text_eqb k' k) eqn:E1.
    + apply text_eqb_eq in E1. subst k'. cbn [lookup].
      destruct (text_eqb k a); reflexivity.
    + cbn [lookup]. rewrite IH.
      destruct (text_eqb k' a) eqn:E2; [|reflexivity].
      destruct (text_eqb k a) eqn:E3; [|reflexivity].
      apply text_eqb_eq in E2. apply text_eqb_eq in E3. subst.
      rewrite text_eqb_refl in E1. discriminate.
Qed.

Lemma lookup_scan_variations : forall tl attr vs m a,
  lookup a (scan_variations tl attr vs m)
  = if text_eqb attr a then app_opt (lookup a m) (matched_labels tl vs) else lookup a m.
Proof.
  intros tl attr vs. induction vs as [|vd vs IH]; intros m a; cbn [scan_variations].
  - destruct (text_eqb attr a); [|reflexivity]. unfold matched_labels. cbn.
    destruct (lookup a m); cbn [app_opt]; rewrite ?app_nil_r; reflexivity.
  - rewrite IH. unfold matched_labels. cbn [filter].
    destruct (pattern_hit tl (patterns vd)) eqn:P.
    + rewrite lookup_dd_append. destruct (text_eqb attr a); [|reflexivity].
      rewrite app_opt_app. reflexivity.
    + reflexivity.
Qed.

Lemma lookup_scan_config : forall tl cfg m a,
  lookup a (scan_config tl cfg m) = app_opt (lookup a m) (cfg_labels tl a cfg).
Proof.
  intros tl cfg. induction cfg as [|[attr vs] cfg IH]; intros m a; cbn [scan_config].
  - destruct (lookup a m); cbn [app_opt]; rewrite ?app_nil_r; reflexivity.
  - rewrite IH, lookup_scan_variations. unfold cfg_labels. cbn [flat_map fst snd].
    fold (cfg_labels tl a cfg).
    destruct (text_eqb attr a); [rewrite app_opt_app; reflexivity | reflexivity].
Qed.

Lemma lookup_map_value : forall {V W} (f : V -> W) a (m : list (text * V)),
  lookup a (map (fun '(k, v) => (k, f v)) m) = option_map f (lookup a m).
Proof.
  intros V W f a m. induction m as [|[k v] m IH]; cbn [map lookup]; [reflexivity|].
  destruct (text_eqb k a); [reflexivity | exact IH].
Qed.

Lemma search_bounded_nil : forall p, search_bounded p [] = false.
Proof.
  intros p. unfold search_bounded. cbn [length seq existsb].
  unfold boundary at 1. cbn. reflexivity.
Qed.

Lemma in_cfg_labels : forall tl a cfg x,
  In x (cfg_labels tl a cfg)
  <-> exists vs vd, In (a, vs) cfg /\ In vd vs /\ pattern_hit tl (patterns vd) = true
                    /\ variation vd = x.
Proof.
  intros tl a cfg x. unfold cfg_labels. rewrite in_flat_map. split.
  - intros [[k vs] [Hin Hx]]. cbn [fst snd] in Hx.
    destruct (text_eqb k a) eqn:E; [|contradiction].
    apply text_eqb_eq in E. subst k.
    unfold matched_labels in Hx. apply in_map_iff in Hx as [vd [Hv Hf]].
    apply filter_In in Hf as [Hvd Hp]. exists vs, vd. auto.
  - intros [vs [vd [Hin [Hvd [Hp Hv]]]]]. exists (a, vs). split; [exact Hin|].
    cbn [fst snd]. rewrite text_eqb_refl. unfold matched_labels.
    apply in_map_iff. exists vd. split; [exact Hv|]. apply filter_In. auto.
Qed.

(** The value [find_matches] gives an attribute. *)
Lemma lookup_find_matches : forall s cfg a,
  lookup a (find_matches s cfg)
  = match cfg_labels (lower s) a cfg with
    | [] => None
    | L => Some (join_slash (sort_asc (dedup L)))
    end.
Proof.
  intros s cfg a. unfold find_matches.
  destruct (is_nil s || is_nil cfg) eqn:G.
  - cbn [lookup]. apply orb_true_iff in G as [G | G].
    + destruct s; [|discriminate]. cbn [lower map].
      destruct (cfg_labels [] a cfg) as [|x L] eqn:E; [reflexivity|].
      exfalso. assert (Hx : In x (cfg_labels [] a cfg)) by (rewrite E; left; reflexivity).
      apply in_cfg_labels in Hx as [vs [vd [_ [_ [Hp _]]]]].
      rewrite pattern_hit_existsb in Hp. apply existsb_exists in Hp as [p [_ Hp]].
      rewrite search_bounded_nil in Hp. discriminate.
    + destruct cfg; [reflexivity | discriminate].
  - rewrite lookup_map_value, lookup_scan_config. cbn [lookup app_opt].
    destruct (cfg_labels (lower s) a cfg); reflexivity.
Qed.

Lemma in_dedup : forall x l, In x (dedup l) <-> In x l.
Proof.
  intros x l. induction l as [|y l IH]; cbn [dedup]; [reflexivity|].
  destruct (mem y l) eqn:M.
  - rewrite IH. apply mem_In in M. split; [right; exact H|].
    intros [<- | H]; [exact M | exact H].
  - cbn [In]. rewrite IH. reflexivity.
Qed.

Lemma dedup_NoDup : forall l, NoDup (dedup l).
Proof.
  induction l as [|y l IH]; cbn [dedup]; [constructor|].
  destruct (mem y l) eqn:M; [exact IH|].
  constructor; [|exact IH]. rewrite in_dedup. intros H. apply mem_In in H. congruence.
Qed.

Lemma text_leb_total : forall x y, text_leb x y = false -> text_leb y x = true.
Proof.
  induction x as [|a x IH]; intros [|b y] H; cbn [text_leb] in *; try reflexivity; try discriminate.
  destruct (a <? b)%N eqn:E1; [discriminate|].
  destruct (b <? a)%N eqn:E2; [reflexivity|].
  apply N.ltb_ge in E1. apply N.ltb_ge in E2.
  assert (a = b) by lia. subst b. rewrite N.eqb_refl in *. apply IH. exact H.
Qed.

Lemma insert_asc_hdrel : forall y x l,
  HdRel text_le y l -> text_le y x -> HdRel text_le y (insert_asc x l).
Proof.
  intros y x [|z l] H Hyx; cbn [insert_asc]; [constructor; exact Hyx|].
  destruct (text_leb x z); constructor; [exact Hyx | inversion H; assumption].
Qed.

Lemma insert_asc_sorted : forall x l, Sorted text_le l -> Sorted text_le (insert_asc x l).
Proof.
  intros x l. induction l as [|y l IH]; intros H; cbn [insert_asc].
  - repeat constructor.
  - destruct (text_leb x y) eqn:E.
    + constructor; [exact H | constructor; exact E].
    + inversion H as [|? ? Hs Hr]; subst. constructor; [apply IH; exact Hs|].
      apply insert_asc_hdrel; [exact Hr | apply text_leb_total; exact E].
Qed.

Lemma sort_asc_sorted : forall l, Sorted text_le (sort_asc l).
Proof.
  induction l as [|x l IH]; cbn [sort_asc]; [constructor|]. apply insert_asc_sorted. exact IH.
Qed.

Lemma insert_asc_perm : forall x l, Permutation (insert_asc x l) (x :: l).
Proof.
  intros x l. induction l as [|y l IH]; cbn [insert_asc]; [reflexivity|].
  destruct (text_leb x y); [reflexivity|]. rewrite IH. apply perm_swap.
Qed.

Lemma sort_asc_perm : forall l, Permutation (sort_asc l) l.
Proof.
  induction l as [|x l IH]; cbn [sort_asc]; [reflexivity|].
  rewrite insert_asc_perm, IH. reflexivity.
Qed.

(** C6: [find_matches] gives attribute [a] a value exactly when a pattern of
    one of its variations occurs in the text (case-insensitive, with word
    boundaries), and that value is ["/"]-join of the matched variation labels,
    sorted and without duplicates. *)
Theorem find_matches_spec : forall s cfg a,
  (lookup a (find_matches s cfg) = None
   <-> ~ exists vs vd, In (a, vs) cfg /\ In vd vs /\ variation_matched (lower s) vd)
  /\ (forall r, lookup a (find_matches s cfg) = Some r ->
        exists L, r = join_slash L /\ NoDup L /\ Sorted text_le L
          /\ (forall x, In x L <-> exists vs vd, In (a, vs) cfg /\ In vd vs
                                   /\ variation_matched (lower s) vd /\ variation vd = x)).
Proof.
  intros s cfg a.
  assert (Hm : forall vd, pattern_hit (lower s) (patterns vd) = true
                          <-> variation_matched (lower s) vd).
  { intros vd. rewrite pattern_hit_existsb, existsb_exists. reflexivity. }
  rewrite lookup_find_matches. split.
  - destruct (cfg_labels (lower s) a cfg) as [|x L] eqn:E; split.
    + intros _ [vs [vd [Hin [Hvd Hmv]]]].
      assert (Hx : In (variation vd) (cfg_labels (lower s) a cfg)).
      { apply in_cfg_labels. exists vs, vd. repeat split; try assumption. apply Hm. exact Hmv. }
      rewrite E in Hx. contradiction.
    + reflexivity.
    + discriminate.
    + intros Hno. exfalso. apply Hno.
      assert (Hx : In x (cfg_labels (lower s) a cfg)) by (rewrite E; left; reflexivity).
      apply in_cfg_labels in Hx as [vs [vd [Hin [Hvd [Hp _]]]]].
      exists vs, vd. repeat split; try assumption. apply Hm. exact Hp.
  - intros r Hr. destruct (cfg_labels (lower s) a cfg) as [|x L] eqn:E; [discriminate|].
    injection Hr as <-. exists (sort_asc (dedup (x :: L))).
    split; [reflexivity|]. split; [|split].
    + eapply Permutation_NoDup; [symmetry; apply sort_asc_perm | apply dedup_NoDup].
    + apply sort_asc_sorted.
    + intros y. assert (Hp : In y (sort_asc (dedup (x :: L))) <-> In y (dedup (x :: L)))
        by (split; apply Permutation_in; [|symmetry]; apply sort_asc_perm).
      rewrite Hp, in_dedup, <- E, in_cfg_labels. split.
      * intros [vs [vd [H1 [H2 [H3 H4]]]]]. exists vs, vd. repeat split; try assumption.
        apply Hm. exact H3.
      * intros [vs [vd [H1 [H2 [H3 H4]]]]]. exists vs, vd. repeat split; try assumption.
        apply Hm. exact H3.
Qed.

Lemma find_matches_spec_witness :
  exists L, txt "110v/220v" = join_slash L /\ NoDup L /\ Sorted text_le L
    /\ (forall x, In x L <-> exists vs vd, In (txt "Voltagem", vs) bivolt_config /\ In vd vs
          /\ variation_matched (lower (txt "Motor bivolt 220V e 110 v")) vd /\ variation vd = x).
Proof.
  apply (proj2 (find_matches_spec (txt "Motor bivolt 220V e 110 v") bivolt_config (txt "Voltagem"))).
  vm_compute. reflexivity.
Defined.

(** ** C7 *)

Lemma uniq_snoc : forall p x,
  uniq (p ++ [x]) = if mem x (uniq p) then uniq p else uniq p ++ [x].
Proof. intros p x. unfold uniq. rewrite fold_left_app. reflexivity. Qed.

Lemma counter_snoc : forall p x, counter (p ++ [x]) = counter_add (counter p) x.
Proof. intros p x. unfold counter. rewrite fold_left_app. reflexivity. Qed.

Lemma in_uniq : forall w p, In w (uniq p) <-> In w p.
Proof.
  intros w p. revert w. induction p as [|x p IH] using rev_ind; intros w; [reflexivity|].
  rewrite uniq_snoc, in_app_iff. cbn [In].
  destruct (mem x (uniq p)) eqn:M.
  - rewrite IH. apply mem_In in M. rewrite IH in M.
    split; [left; exact H|]. intros [H | [<- | []]]; assumption.
  - rewrite in_app_iff, IH. reflexivity.
Qed.

Lemma uniq_NoDup : forall p, NoDup (uniq p).
Proof.
  induction p as [|x p IH] using rev_ind; [constructor|].
  rewrite uniq_snoc. destruct (mem x (uniq p)) eqn:M; [exact IH|].
  apply NoDup_app; [exact IH | repeat constructor; intros [] |].
  intros y Hy [<- | []]. apply mem_In in Hy. congruence.
Qed.

Lemma count_text_snoc : forall w p x,
  count_text w (p ++ [x]) = count_text w p + (if text_eqb x w then 1 else 0).
Proof.
  intros w p x. unfold count_text. rewrite filter_app, length_app. cbn [filter].
  destruct (text_eqb x w); reflexivity.
Qed.

Lemma count_text_absent : forall w p, ~ In w p -> count_text w p = 0.
Proof.
  intros w p H. unfold count_text. induction p as [|x p IH]; [reflexivity|].
  cbn [filter]. destruct (text_eqb x w) eqn:E.
  - apply text_eqb_eq in E. subst. exfalso. apply H. left. reflexivity.
  - apply IH. intros Hw. apply H. right. exact Hw.
Qed.

Lemma counter_add_present : forall (f : text -> nat) l x,
  In x l -> NoDup l ->
  counter_add (map (fun w => (w, f w)) l) x
  = map (fun w => (w, if text_eqb x w then S (f w) else f w)) l.
Proof.
  intros f l x. induction l as [|y l IH]; intros Hin Hnd; [contradiction|].
  inversion Hnd as [|? ? Hy Hl]; subst. cbn [map counter_add].
  destruct (text_eqb y x) eqn:E.
  - apply text_eqb_eq in E. subst y. rewrite text_eqb_refl. f_equal.
    apply map_ext_in. intros w Hw. destruct (text_eqb x w) eqn:E'; [|reflexivity].
    apply text_eqb_eq in E'. subst. contradiction.
  - destruct Hin as [-> | Hin]; [rewrite text_eqb_refl in E; discriminate|].
    assert (E' : text_eqb x y = false).
    { destruct (text_eqb x y) eqn:E'; [|reflexivity].
      apply text_eqb_eq in E'. subst. rewrite text_eqb_refl in E. discriminate. }
    rewrite E'. f_equal. apply IH; assumption.
Qed.

Lemma counter_add_absent : forall (f : text -> nat) l x,
  ~ In x l -> counter_add (map (fun w => (w, f w)) l) x = map (fun w => (w, f w)) l ++ [(x, 1)].
Proof.
  intros f l x. induction l as [|y l IH]; intros Hin; [reflexivity|].
  cbn [map counter_add]. destruct (text_eqb y x) eqn:E.
  - apply text_eqb_eq in E. subst. exfalso. apply Hin. left. reflexivity.
  - cbn [app]. f_equal. apply IH. intros H. apply Hin. right. exact H.
Qed.

(** [Counter(xs)]: the distinct words in order of first occurrence, each with
    its number of occurrences. *)
Lemma counter_spec : forall xs,
  counter xs = map (fun w => (w, count_text w xs)) (uniq xs).
Proof.
  induction xs as [|x p IH] using rev_ind; [reflexivity|].
  rewrite counter_snoc, uniq_snoc, IH. destruct (mem x (uniq p)) eqn:M.
  - apply mem_In in M. rewrite (counter_add_present _ _ _ M (uniq_NoDup p)).
    apply map_ext. intros w. rewrite count_text_snoc.
    destruct (text_eqb x w); f_equal; lia.
  - assert (Hx : ~ In x (uniq p)) by (intros H; apply mem_In in H; congruence).
    rewrite (counter_add_absent _ _ _ Hx), map_app. cbn [map]. f_equal.
    + apply map_ext_in. intros w Hw. rewrite count_text_snoc.
      destruct (text_eqb x w) eqn:E; [|f_equal; lia].
      apply text_eqb_eq in E. subst. contradiction.
    + rewrite count_text_snoc, text_eqb_refl, count_text_absent; [reflexivity|].
      rewrite <- in_uniq. exact Hx.
Qed.

Lemma first_index_app_in : forall w p q, In w p -> first_index w (p ++ q) = first_index w p.
Proof.
  intros w p q. induction p as [|x p IH]; intros H; [contradiction|].
  cbn [app first_index]. destruct (text_eqb x w) eqn:E; [reflexivity|].
  f_equal. apply IH. destruct H as [-> | H]; [rewrite text_eqb_refl in E; discriminate | exact H].
Qed.

Lemma first_index_lt : forall w p, In w p -> first_index w p < length p.
Proof.
  intros w p. induction p as [|x p IH]; intros H; [contradiction|].
  cbn [first_index length]. destruct (text_eqb x w) eqn:E; [lia|].
  destruct H as [-> | H]; [rewrite text_eqb_refl in E; discriminate|]. specialize (IH H). lia.
Qed.

Lemma first_index_app_absent : forall w p q, ~ In w p -> first_index w (p ++ w :: q) = length p.
Proof.
  intros w p q. induction p as [|x p IH]; intros H; cbn [app first_index length].
  - rewrite text_eqb_refl. reflexivity.
  - destruct (text_eqb x w) eqn:E.
    + apply text_eqb_eq in E. subst. exfalso. apply H. left. reflexivity.
    + f_equal. apply IH. intros Hw. apply H. right. exact Hw.
Qed.

Lemma StronglySorted_snoc : forall {A} (R : A -> A -> Prop) l x,
  StronglySorted R l -> Forall (fun y => R y x) l -> StronglySorted R (l ++ [x]).
Proof.
  intros A R l x. induction l as [|y l IH]; intros Hs Hf; cbn [app].
  - repeat constructor.
  - inversion Hs as [|? ? Hs' Hy]; subst. inversion Hf as [|? ? Hyx Hf']; subst.
    constructor; [apply IH; assumption|]. apply Forall_app. split; [exact Hy|].
    constructor; [exact Hyx | constructor].
Qed.

(** The distinct words come in order of first occurrence. *)
Lemma uniq_first_index_sorted : forall p q,
  StronglySorted (fun a b => first_index a (p ++ q) < first_index b (p ++ q)) (uniq p).
Proof.
  induction p as [|x p IH] using rev_ind; intros q; [constructor|].
  rewrite uniq_snoc, <- app_assoc. cbn [app].
  destruct (mem x (uniq p)) eqn:M; [apply IH|].
  apply StronglySorted_snoc; [apply IH|].
  assert (Hx : ~ In x p) by (rewrite <- in_uniq; intros H; apply mem_In in H; congruence).
  apply Forall_forall. intros y Hy. rewrite in_uniq in Hy.
  rewrite first_index_app_in by exact Hy. rewrite first_index_app_absent by exact Hx.
  apply first_index_lt. exact Hy.
Qed.

Section MostCommonOrder.
Variable xs : list text.

Let idx (p : text * nat) : nat := first_index (fst p) xs.

Lemma freq_before_le : forall p q, freq_before xs p q -> snd q <= snd p.
Proof. intros p q [H | [H _]]; lia. Qed.

Lemma insert_desc_freq_sorted : forall x l,
  Forall (fun y => idx x < idx y) l -> StronglySorted (freq_before xs) l ->
  StronglySorted (freq_before xs) (insert_desc snd x l).
Proof.
  intros x l. induction l as [|y l IH]; intros Hf Hs; cbn [insert_desc].
  - repeat constructor.
  - inversion Hs as [|? ? Hs' Hy]; subst. inversion Hf as [|? ? Hxy Hf']; subst.
    destruct (snd y <=? snd x) eqn:E.
    + apply Nat.leb_le in E. constructor; [exact Hs|].
      constructor.
      * destruct (Nat.eq_dec (snd x) (snd y)) as [Heq | Hne];
          [right; split; [exact Heq | exact Hxy] | left; lia].
      * apply Forall_forall. intros z Hz.
        pose proof (proj1 (Forall_forall _ _) Hy z Hz) as Hyz.
        pose proof (freq_before_le _ _ Hyz) as Hle.
        pose proof (proj1 (Forall_forall _ _) Hf' z Hz) as Hxz.
        destruct (Nat.eq_dec (snd x) (snd z)) as [Heq | Hne];
          [right; split; [exact Heq | exact Hxz] | left; lia].
    + apply Nat.leb_gt in E. constructor; [apply IH; assumption|].
      apply (Permutation_Forall (Permutation_sym (insert_desc_perm snd x l))).
      constructor; [left; exact E | exact Hy].
Qed.

Lemma sort_desc_freq_sorted : forall l,
  StronglySorted (fun a b => idx a < idx b) l ->
  StronglySorted (freq_before xs) (sort_desc snd l).
Proof.
  induction l as [|x l IH]; intros Hs; cbn [sort_desc]; [constructor|].
  inversion Hs as [|? ? Hs' Hx]; subst.
  apply insert_desc_freq_sorted; [|apply IH; exact Hs'].
  apply (Permutation_Forall (Permutation_sym (sort_desc_perm snd l))). exact Hx.
Qed.
End MostCommonOrder.

(** C7: [Counter(xs).most_common()] lists each distinct word of [xs] once,
    with its number of occurrences, by decreasing count, and words of equal
    count in the order in which they first occur in [xs]. *)
Theorem most_common_spec : forall xs,
  (forall w c, In (w, c) (most_common xs) <-> In w xs /\ c = count_text w xs)
  /\ NoDup (map fst (most_common xs))
  /\ StronglySorted (freq_before xs) (most_common xs).
Proof.
  intros xs. unfold most_common. rewrite counter_spec.
  pose proof (sort_desc_perm snd (map (fun w => (w, count_text w xs)) (uniq xs))) as HP.
  split; [|split].
  - intros w c. split.
    + intros H. apply (Permutation_in _ HP) in H. apply in_map_iff in H as [w' [Hw Hin]].
      injection Hw as <- <-. split; [rewrite <- in_uniq; exact Hin | reflexivity].
    + intros [Hin ->]. apply (Permutation_in _ (Permutation_sym HP)).
      apply in_map_iff. exists w. split; [reflexivity | rewrite in_uniq; exact Hin].
  - apply (Permutation_NoDup (Permutation_map fst (Permutation_sym HP))).
    rewrite map_map. cbn [fst]. rewrite map_id. apply uniq_NoDup.
  - apply sort_desc_freq_sorted.
    pose proof (uniq_first_index_sorted xs []) as H. rewrite app_nil_r in H.
    clear HP. induction H as [|w l Hs IH Hf]; cbn [map]; constructor; [exact IH|].
    apply Forall_map. exact Hf.
Qed.

Example most_common_example :
  most_common (map txt ["b"%string; "a"%string; "a"%string; "c"%string; "b"%string; "d"%string])
  = [(txt "b", 2); (txt "a", 2); (txt "c", 1); (txt "d", 1)].
Proof. vm_compute. reflexivity. Qed.

(** * Further properties of the program *)

(** ** Case and whitespace *)

Lemma lower_char_idem : forall c, lower_char (lower_char c) = lower_char c.
Proof.
  intros c. unfold lower_char.
  destruct (((65 <=? c) && (c <=? 90)) || ((192 <=? c) && (c <=? 222) && negb (c =? 215)))%N eqn:E;
    [|rewrite E; reflexivity].
  apply orb_true_iff in E. rewrite !andb_true_iff, !N.leb_le, negb_true_iff, N.eqb_neq in E.
  replace (((65 <=? c + 32) && (c + 32 <=? 90))
           || ((192 <=? c + 32) && (c + 32 <=? 222) && negb (c + 32 =? 215)))%N with false;
    [reflexivity|].
  symmetry. apply orb_false_iff. rewrite !andb_false_iff, !N.leb_gt, negb_false_iff, N.eqb_eq.
  lia.
Qed.

Lemma lower_idem : forall s, lower (lower s) = lower s.
Proof.
  intros s. unfold lower. rewrite map_map. apply map_ext. apply lower_char_idem.
Qed.

Lemma is_space_lower_char : forall c, is_space (lower_char c) = is_space c.
Proof.
  intros c. unfold lower_char.
  destruct (((65 <=? c) && (c <=? 90)) || ((192 <=? c) && (c <=? 222) && negb (c =? 215)))%N eqn:E;
    [|reflexivity].
  apply orb_true_iff in E. rewrite !andb_true_iff, !N.leb_le in E.
  unfold is_space.
  replace (((9 <=? c + 32) && (c + 32 <=? 13)) || ((28 <=? c + 32) && (c + 32 <=? 32))
    || (c + 32 =? 133) || (c + 32 =? 160) || (c + 32 =? 5760)
    || ((8192 <=? c + 32) && (c + 32 <=? 8202)) || (c + 32 =? 8232) || (c + 32 =? 8233)
    || (c + 32 =? 8239) || (c + 32 =? 8287) || (c + 32 =? 12288))%N with false
    by (symmetry; repeat rewrite orb_false_iff; repeat rewrite andb_false_iff;
        rewrite ?N.leb_gt, ?N.eqb_neq; destruct E as [E | [E _]]; lia).
  symmetry; repeat rewrite orb_false_iff; repeat rewrite andb_false_iff;
    rewrite ?N.leb_gt, ?N.eqb_neq; destruct E as [E | [E _]]; lia.
Qed.

Lemma lstrip_lower : forall s, lstrip (lower s) = lower (lstrip s).
Proof.
  induction s as [|c s IH]; [reflexivity|].
  cbn [lower map lstrip]. fold (lower s). rewrite is_space_lower_char.
  destruct (is_space c); [exact IH | reflexivity].
Qed.

Lemma strip_lower : forall s, strip (lower s) = lower (strip s).
Proof.
  intros s. unfold strip, rstrip. rewrite lstrip_lower. unfold lower.
  rewrite <- map_rev. fold (lower (rev (lstrip s))). rewrite lstrip_lower.
  unfold lower. rewrite map_rev. reflexivity.
Qed.

Lemma lstrip_all_space : forall s, forallb is_space s = true -> lstrip s = [].
Proof.
  induction s as [|c s IH]; intros H; [reflexivity|].
  cbn [forallb] in H. apply andb_true_iff in H as [Hc Hs].
  cbn [lstrip]. rewrite Hc. apply IH. exact Hs.
Qed.

Lemma rstrip_app_nonempty : forall u x, rstrip x <> [] -> rstrip (u ++ x) = u ++ rstrip x.
Proof.
  intros u x H. unfold rstrip in *. rewrite rev_app_distr, lstrip_app.
  destruct (lstrip (rev x)) as [|d e]; [contradiction|].
  rewrite rev_app_distr, rev_involutive. reflexivity.
Qed.






(** ** [extract_first_word] of [app.py] *)

Lemma split_sep_aux_nonempty : forall sep s cur, split_sep_aux sep cur s <> [].
Proof.
  intros sep. induction s as [|c s IH]; intros cur; cbn [split_sep_aux];
    [|destruct (c =? sep)%N]; try discriminate. apply IH.
Qed.

Lemma split_sep_aux_head : forall sep s cur x rest,
  split_sep_aux sep cur s = x :: rest -> ~ In sep cur ->
  exists b, rev cur ++ s = x ++ b /\ ~ In sep x.
Proof.
  intros sep. induction s as [|c s IH]; intros cur x rest H Hcur; cbn [split_sep_aux] in H.
  - injection H as <- _. exists []. split; [reflexivity|].
    intros Hin. apply Hcur. apply in_rev. exact Hin.
  - destruct (c =? sep)%N eqn:E.
    + injection H as <- _. exists (c :: s). split; [reflexivity|].
      intros Hin. apply Hcur. apply in_rev. exact Hin.
    + apply IH in H as [b [Hb Hx]].
      * exists b. split; [|exact Hx]. rewrite <- Hb. cbn [rev]. rewrite <- app_assoc. reflexivity.
      * intros [Hc | Hc]; [subst; rewrite N.eqb_refl in E; discriminate | exact (Hcur Hc)].
Qed.

Lemma drop_non_app_class_head : forall s c d,
  drop_non_app_class s = c :: d -> app_word_class c = true.
Proof.
  induction s as [|e s IH]; cbn [drop_non_app_class]; [discriminate|].
  intros c d. destruct (app_word_class e) eqn:E; [|apply IH].
  intros H. injection H as <- _. exact E.
Qed.

Lemma drop_non_app_class_none : forall s,
  forallb (fun c => negb (app_word_class c)) s = true -> drop_non_app_class s = [].
Proof.
  induction s as [|e s IH]; intros H; [reflexivity|].
  cbn [forallb] in H. apply andb_true_iff in H as [He Hs].
  cbn [drop_non_app_class]. destruct (app_word_class e); [discriminate|]. apply IH. exact Hs.
Qed.

(** ** Frequency tables *)

Lemma in_most_common : forall xs w k,
  In (w, k) (most_common xs) -> In w xs /\ k = count_text w xs.
Proof.
  intros xs w k H. unfold most_common in H.
  apply (Permutation_in _ (sort_desc_perm snd (counter xs))) in H.
  rewrite counter_spec, in_map_iff in H. destruct H as [y [Hy Hin]].
  injection Hy as <- <-. rewrite in_uniq in Hin. split; [exact Hin | reflexivity].
Qed.

Lemma count_text_pos : forall w xs, In w xs -> 1 <= count_text w xs.
Proof.
  intros w xs H. unfold count_text.
  assert (Hf : In w (filter (fun x => text_eqb x w) xs))
    by (apply filter_In; split; [exact H | apply text_eqb_refl]).
  destruct (filter _ xs); [contradiction | cbn; lia].
Qed.

Lemma total_count_perm : forall t t', Permutation t t' -> total_count t = total_count t'.
Proof.
  intros t t' H. unfold total_count. induction H; cbn [map fold_right]; lia.
Qed.

Lemma total_count_counter_add : forall d w, total_count (counter_add d w) = S (total_count d).
Proof.
  intros d w. induction d as [|[k c] d IH]; [reflexivity|].
  cbn [counter_add]. destruct (text_eqb k w); unfold total_count in *; cbn [map fold_right snd] in *;
    lia.
Qed.

Lemma total_count_fold_counter : forall xs d,
  total_count (fold_left counter_add xs d) = length xs + total_count d.
Proof.
  induction xs as [|x xs IH]; intros d; [reflexivity|].
  cbn [fold_left length]. rewrite IH, total_count_counter_add. lia.
Qed.

Lemma in_app_first_words : forall sw col w,
  In w (app_first_words sw col) ->
  exists word, w = lower word /\ ~ In (lower word) sw /\ 3 <= length word.
Proof.
  intros sw col w. induction col as [|v col IH]; cbn [app_first_words]; [intros []|].
  destruct (app_extract_first_word v) as [|word|]; try exact IH.
  destruct (negb (is_nil word) && negb (mem (lower word) sw) && (3 <=? length word)) eqn:C;
    [|exact IH].
  intros [<- | H]; [|exact (IH H)].
  apply andb_true_iff in C as [C C3]. apply andb_true_iff in C as [_ Cm].
  apply negb_true_iff in Cm. apply Nat.leb_le in C3.
  exists word. split; [reflexivity|]. split; [|exact C3].
  intros Hin. apply mem_In in Hin. rewrite Hin in Cm. discriminate.
Qed.

(** X4: the [extract_first_word] of [app.py] never raises: [split(' ')]
    always yields at least one piece. A word it returns is non-empty, starts
    with a character of its class [[a-zA-Z0-9áéíóú...ç]] and contains no
    space (other whitespace, such as a tab, may stay inside it). *)
Theorem app_extract_first_word_shape : forall v,
  app_extract_first_word v <> IndexError
  /\ (forall w, app_extract_first_word v = Word w ->
      exists c w', w = c :: w' /\ app_word_class c = true /\ ~ In 32%N w).
Proof.
  intros v. destruct v as [| |z|s]; cbn [app_extract_first_word];
    [split; [discriminate | intros w H; discriminate] .. | |].
  all: match goal with |- context [strip (py_str ?v)] => generalize (strip (py_str v)) as t end.
  all: intros t; destruct t as [|c0 t0]; [split; [discriminate | intros w H; discriminate]|].
  all: destruct (split_sep 32%N (drop_non_app_class (c0 :: t0))) as [|x rest] eqn:Sp;
    [exfalso; exact (split_sep_aux_nonempty _ _ _ Sp)|].
  all: split; [destruct x; discriminate|].
  all: intros w H; destruct x as [|c w']; [discriminate|]; injection H as <-.
  all: apply split_sep_aux_head in Sp as [b [Hb Hn]]; [|intros []].
  all: change (rev [] ++ ?d) with d in Hb.
  all: exists c, w'; split; [reflexivity|]; split; [|exact Hn].
  all: apply (drop_non_app_class_head (c0 :: t0) c (w' ++ b)); rewrite Hb; reflexivity.
Qed.

Lemma app_extract_first_word_shape_witness :
  app_extract_first_word (PyStr (txt "  -Arroz tipo 1")) = Word (txt "Arroz")
  /\ app_extract_first_word (PyStr (txt "  -Arroz tipo 1")) <> IndexError
  /\ (forall w, app_extract_first_word (PyStr (txt "  -Arroz tipo 1")) = Word w ->
      exists c w', w = c :: w' /\ app_word_class c = true /\ ~ In 32%N w).
Proof.
  split; [vm_compute; reflexivity|].
  exact (app_extract_first_word_shape (PyStr (txt "  -Arroz tipo 1"))).
Defined.

(** X5: a cell of [app.py] with no character of the class (such as ["!!!"])
    gives [None]: the class-stripping [re.sub] leaves an empty text, whose
    [split(' ')] is [['']]. *)
Theorem app_extract_first_word_no_class : forall s,
  forallb (fun c => negb (app_word_class c)) s = true ->
  app_extract_first_word (PyStr s) = NoWord.
Proof.
  intros s H. cbn [app_extract_first_word py_str].
  destruct (strip s) as [|c t] eqn:St; [reflexivity|].
  rewrite drop_non_app_class_none; [reflexivity|].
  destruct (strip_infix s) as [a [b Hab]]. rewrite Hab, !forallb_app in H.
  rewrite <- St. apply andb_true_iff in H as [_ H]. apply andb_true_iff in H as [H _]. exact H.
Qed.

Lemma app_extract_first_word_no_class_witness :
  forallb (fun c => negb (app_word_class c)) (txt "!!!") = true
  /\ app_extract_first_word (PyStr (txt "!!!")) = NoWord.
Proof.
  assert (H : forallb (fun c => negb (app_word_class c)) (txt "!!!") = true)
    by (vm_compute; reflexivity).
  split; [exact H | exact (app_extract_first_word_no_class _ H)].
Defined.

(** X6: every entry [(w, k)] of the table of [analyze_first_words] has a
    lowercase word of at least 3 characters that is not a stopword, and [k]
    is the (positive) number of cells whose first word lowercases to [w]. *)
Theorem analyze_first_words_entries : forall sw col w k,
  In (w, k) (analyze_first_words sw col) ->
  lower w = w /\ 3 <= length w /\ ~ In w sw
  /\ k = count_text w (app_first_words sw col) /\ 1 <= k.
Proof.
  intros sw col w k H. unfold analyze_first_words in H.
  apply in_most_common in H as [Hin Hk].
  pose proof (count_text_pos _ _ Hin) as Hpos.
  apply in_app_first_words in Hin as [word [-> [Hsw Hlen]]].
  split; [apply lower_idem|]. split; [rewrite length_lower; exact Hlen|].
  split; [exact Hsw|]. split; [exact Hk | lia].
Qed.

Lemma analyze_first_words_entries_witness :
  In (txt "arroz", 2) (analyze_first_words [txt "de"] [PyStr (txt "Arroz tipo 1"); PyStr (txt " arroz")])
  /\ lower (txt "arroz") = txt "arroz" /\ 3 <= length (txt "arroz") /\ ~ In (txt "arroz") [txt "de"]
  /\ 2 = count_text (txt "arroz")
           (app_first_words [txt "de"] [PyStr (txt "Arroz tipo 1"); PyStr (txt " arroz")])
  /\ 1 <= 2.
Proof.
  assert (H : In (txt "arroz", 2)
                 (analyze_first_words [txt "de"] [PyStr (txt "Arroz tipo 1"); PyStr (txt " arroz")]))
    by (vm_compute; left; reflexivity).
  split; [exact H | exact (analyze_first_words_entries _ _ _ _ H)].
Defined.

(** X7: the counts of [Counter(words).most_common()] add up to the number of
    words counted: no word is lost or counted twice. *)
Theorem most_common_total : forall xs, total_count (most_common xs) = length xs.
Proof.
  intros xs. unfold most_common.
  rewrite (total_count_perm _ _ (sort_desc_perm snd (counter xs))).
  unfold counter. rewrite total_count_fold_counter. cbn. lia.
Qed.

(** ** Ignore phrases *)

Lemma strip_all_space : forall s, forallb is_space s = true -> strip s = [].
Proof. intros s H. unfold strip. rewrite lstrip_all_space by exact H. reflexivity. Qed.

Lemma in_load_ignore_words : forall col p,
  In p (load_ignore_words col) -> p <> [] /\ strip p = p /\ lower p = p.
Proof.
  intros [col|] p H; [|destruct H].
  cbn [load_ignore_words] in H. apply in_map_iff in H as [v [<- Hv]].
  apply filter_In in Hv as [_ Hv]. apply negb_true_iff in Hv.
  split; [|split].
  - intros Hl. apply (f_equal (@length char)) in Hl. rewrite length_lower in Hl.
    destruct (strip (py_str v)); [discriminate | discriminate].
  - rewrite strip_lower, strip_idem. reflexivity.
  - apply lower_idem.
Qed.

(** ** Attribute sheet *)

Lemma text_eqb_sym : forall a b, text_eqb a b = text_eqb b a.
Proof.
  intros a b. destruct (text_eqb a b) eqn:E1, (text_eqb b a) eqn:E2; try reflexivity.
  - apply text_eqb_eq in E1. subst. rewrite text_eqb_refl in E2. discriminate.
  - apply text_eqb_eq in E2. subst. rewrite text_eqb_refl in E1. discriminate.
Qed.

Lemma lookup_cfg_append : forall a k vd m,
  lookup a (cfg_append k vd m)
  = if text_eqb k a then Some (match lookup a m with Some l => l ++ [vd] | None => [vd] end)
    else lookup a m.
Proof.
  intros a k vd m. induction m as [|[k' vds] m IH]; cbn [cfg_append lookup].
  - destruct (text_eqb k a); reflexivity.
  - destruct (text_eqb k' k) eqn:E1.
    + apply text_eqb_eq in E1. subst k'. cbn [lookup]. destruct (text_eqb k a); reflexivity.
    + cbn [lookup]. destruct (text_eqb k' a) eqn:E2; [|exact IH].
      apply text_eqb_eq in E2. subst k'. rewrite text_eqb_sym, E1. reflexivity.
Qed.

Lemma lookup_load_config_rows : forall a rows m,
  lookup a (load_config_rows rows m)
  = match lookup a m with
    | None => match flat_map (row_variation_for a) rows with [] => None | l => Some l end
    | Some x => Some (x ++ flat_map (row_variation_for a) rows)
    end.
Proof.
  intros a. induction rows as [|r rows IH]; intros m; cbn [load_config_rows flat_map].
  - destruct (lookup a m); rewrite ?app_nil_r; reflexivity.
  - destruct (row_attribute r) as [a'|] eqn:Ea, (row_variation r) as [v|] eqn:Ev;
      try (assert (Hr : row_variation_for a r = [])
             by (unfold row_variation_for; rewrite Ea, ?Ev; reflexivity);
           rewrite Hr; cbn [app]; apply IH).
    assert (Hr : row_variation_for a r
                 = if text_eqb a' a && notna (row_patterns r)
                   then [{| variation := v; patterns := parse_patterns (row_patterns r) |}] else [])
      by (unfold row_variation_for; rewrite Ea, Ev; reflexivity).
    rewrite Hr. destruct (notna (row_patterns r)) eqn:Nn;
      [|rewrite andb_false_r; cbv iota; cbn [app]; apply IH].
    rewrite IH, lookup_cfg_append, andb_true_r.
    destruct (text_eqb a' a); cbn [app]; [|reflexivity].
    destruct (lookup a m); [rewrite <- app_assoc; reflexivity | reflexivity].
Qed.

Lemma in_parse_patterns : forall cell p, In p (parse_patterns cell) -> strip p = p /\ lower p = p.
Proof.
  intros cell p H. unfold parse_patterns in H. apply in_map_iff in H as [q [<- _]].
  split; [rewrite strip_lower, strip_idem; reflexivity | apply lower_idem].
Qed.

Lemma split_sep_aux_trailing : forall sep u cur, In [] (split_sep_aux sep cur (u ++ [sep])).
Proof.
  intros sep. induction u as [|c u IH]; intros cur; cbn [app split_sep_aux].
  - rewrite N.eqb_refl. right. left. reflexivity.
  - destruct (c =? sep)%N; [right|]; apply IH.
Qed.

Lemma existsb_false_iff : forall {A} (f : A -> bool) l,
  existsb f l = false <-> forall x, In x l -> f x = false.
Proof.
  intros A f l. induction l as [|y l IH]; cbn [existsb In]; [split; [intros _ x []|reflexivity]|].
  rewrite orb_false_iff, IH. split.
  - intros [Hy Hl] x [<- | Hx]; [exact Hy | exact (Hl x Hx)].
  - intros H. split; [apply H; left; reflexivity | intros x Hx; apply H; right; exact Hx].
Qed.

Lemma search_bounded_empty : forall s, search_bounded [] s = existsb is_word s.
Proof.
  intros s. unfold search_bounded. cbn [lower map length prefixb].
  set (f := fun i => match char_at s i with Some c => is_word c | None => false end).
  assert (Hb : forall i, boundary s i
                         = xorb (match i with 0 => false | S j => f j end) (f i))
    by (intros [|i]; reflexivity).
  assert (Hall : (forall i, In i (seq 0 (S (length s))) -> boundary s i = false) ->
                 forall i, f i = false).
  { intros H. induction i as [|i IHi].
    - specialize (H 0). rewrite Hb in H. apply H. apply in_seq. lia.
    - destruct (Nat.le_gt_cases (S i) (length s)) as [Hl | Hl].
      + specialize (H (S i)). rewrite Hb, IHi in H. apply H. apply in_seq. lia.
      + unfold f, char_at. rewrite (proj2 (nth_error_None s (S i))) by lia. reflexivity. }
  assert (Hw : existsb is_word s = true <-> exists i, f i = true).
  { rewrite existsb_exists. split.
    - intros [c [Hc Hwc]]. apply In_nth_error in Hc as [i Hi].
      exists i. unfold f, char_at. rewrite Hi. exact Hwc.
    - intros [i Hi]. unfold f, char_at in Hi. destruct (nth_error s i) as [c|] eqn:E;
        [|discriminate].
      exists c. split; [eapply nth_error_In; exact E | exact Hi]. }
  destruct (existsb is_word s) eqn:Ew.
  - destruct (existsb _ (seq 0 (S (length s)))) eqn:Eb; [reflexivity|].
    exfalso. destruct (proj1 Hw eq_refl) as [i Hi].
    assert (Hf : forall j, In j (seq 0 (S (length s))) -> boundary s j = false).
    { intros j Hj. assert (H := proj1 (existsb_false_iff _ _) Eb j Hj). cbv beta in H.
      rewrite Nat.add_0_r, andb_true_r, andb_diag in H. exact H. }
    rewrite (Hall Hf i) in Hi. discriminate.
  - apply existsb_false_iff. intros i _.
    rewrite Nat.add_0_r, andb_true_r, andb_diag, Hb.
    assert (Hf : forall j, f j = false).
    { intros j. destruct (f j) eqn:Fj; [|reflexivity].
      assert (Hc : false = true) by (apply Hw; exists j; exact Fj). discriminate Hc. }
    destruct i; rewrite ?Hf; reflexivity.
Qed.

Lemma pattern_hit_in : forall tl p pats,
  In p pats -> search_bounded p tl = true -> pattern_hit tl pats = true.
Proof.
  intros tl p pats. induction pats as [|q pats IH]; intros Hin Hs; [destruct Hin|].
  cbn [pattern_hit]. destruct Hin as [<- | Hin]; [rewrite Hs; reflexivity|].
  destruct (search_bounded q tl); [reflexivity | exact (IH Hin Hs)].
Qed.

(** ** Categories *)

Lemma lookup_dict_set : forall {V} a k (v : V) m,
  lookup a (dict_set k v m) = if text_eqb k a then Some v else lookup a m.
Proof.
  intros V a k v m. induction m as [|[k' v'] m IH]; cbn [dict_set lookup].
  - destruct (text_eqb k a); reflexivity.
  - destruct (text_eqb k' k) eqn:E1.
    + apply text_eqb_eq in E1. subst k'. cbn [lookup]. destruct (text_eqb k a); reflexivity.
    + cbn [lookup]. destruct (text_eqb k' a) eqn:E2; [|exact IH].
      apply text_eqb_eq in E2. subst k'. rewrite text_eqb_sym, E1. reflexivity.
Qed.

Lemma lookup_load_categories : forall a rows,
  lookup a (load_categories rows)
  = option_map snd (find (fun r => text_eqb (lower (fst r)) a) (rev rows)).
Proof.
  intros a rows. unfold load_categories.
  induction rows as [|r rows IH] using rev_ind; [reflexivity|].
  rewrite fold_left_app, rev_app_distr. cbn [fold_left rev app find].
  rewrite lookup_dict_set, IH. destruct (text_eqb (lower (fst r)) a); reflexivity.
Qed.

(** X8: every phrase read by [load_ignore_words] is non-empty, stripped and
    lowercase; with these phrases alone [extract_first_word] always ends, a
    call per character of the text at most. *)
Theorem load_ignore_words_phrases : forall col,
  (forall p, In p (load_ignore_words col) -> p <> [] /\ strip p = p /\ lower p = p)
  /\ (forall sw s, extract_first_word (S (length s)) sw (load_ignore_words col) s <> None).
Proof.
  intros col. split; [apply in_load_ignore_words|].
  intros sw s. apply extract_first_word_terminates; [|lia].
  intros p Hp. exact (proj1 (in_load_ignore_words col p Hp)).
Qed.

Lemma load_ignore_words_phrases_witness :
  load_ignore_words (Some [PyNaN; PyStr (txt "  "); PyStr (txt " Cota ")]) = [txt "nan"; txt "cota"]
  /\ (forall p, In p (load_ignore_words (Some [PyNaN; PyStr (txt "  "); PyStr (txt " Cota ")])) ->
        p <> [] /\ strip p = p /\ lower p = p)
  /\ (forall sw s, extract_first_word (S (length s)) sw
                     (load_ignore_words (Some [PyNaN; PyStr (txt "  "); PyStr (txt " Cota ")])) s <> None).
Proof.
  split; [vm_compute; reflexivity|].
  exact (load_ignore_words_phrases (Some [PyNaN; PyStr (txt "  "); PyStr (txt " Cota ")])).
Defined.

Lemma add_blank_stopword_in : forall loaded custom new,
  new <> [] -> forallb is_space new = true ->
  In [] (all_ignore_phrases loaded (add_custom_stopword custom new)).
Proof.
  intros loaded custom new Hne Hsp. unfold all_ignore_phrases, add_custom_stopword.
  destruct new as [|c r]; [contradiction|]. cbn [is_nil].
  rewrite strip_all_space by exact Hsp. apply in_or_app. right. left. reflexivity.
Qed.

(** X9: a manual entry made only of whitespace passes the test
    [if st.button(...) and new_stopword] and is stored as the empty phrase
    [""]; every text then starts with it, and [extract_first_word] never
    returns a word again (it returns [None] or does not end). *)
Theorem add_blank_stopword_no_word : forall loaded custom new n sw s,
  new <> [] -> forallb is_space new = true ->
  extract_first_word n sw (all_ignore_phrases loaded (add_custom_stopword custom new)) s = None
  \/ extract_first_word n sw (all_ignore_phrases loaded (add_custom_stopword custom new)) s
     = Some NoWord.
Proof.
  intros loaded custom new n sw s Hne Hsp.
  apply extract_first_word_empty_phrase_no_word. apply add_blank_stopword_in; assumption.
Qed.

Lemma add_blank_stopword_no_word_witness :
  txt " " <> [] /\ forallb is_space (txt " ") = true
  /\ (extract_first_word 5 [] (all_ignore_phrases [txt "cota"] (add_custom_stopword [] (txt " ")))
        (txt "cota Parafuso") = None
      \/ extract_first_word 5 [] (all_ignore_phrases [txt "cota"] (add_custom_stopword [] (txt " ")))
           (txt "cota Parafuso") = Some NoWord).
Proof.
  assert (H1 : txt " " <> []) by discriminate.
  assert (H2 : forallb is_space (txt " ") = true) by (vm_compute; reflexivity).
  split; [exact H1|]. split; [exact H2|].
  exact (add_blank_stopword_no_word [txt "cota"] [] (txt " ") 5 [] (txt "cota Parafuso") H1 H2).
Defined.

(** X10: when the only ignore phrase is such a blank manual entry, every
    non-blank description makes [extract_first_word] recurse without end
    (a [RecursionError] in Python): no fuel is enough. *)
Theorem blank_stopword_alone_diverges : forall new n sw s,
  new <> [] -> forallb is_space new = true -> strip s <> [] ->
  extract_first_word n sw (all_ignore_phrases [] (add_custom_stopword [] new)) s = None.
Proof.
  intros new n sw s Hne Hsp Hs.
  apply extract_first_word_empty_phrase_diverges; [apply add_blank_stopword_in; assumption | exact Hs |].
  intros p Hp Hpne. unfold all_ignore_phrases, add_custom_stopword in Hp.
  destruct new as [|c r]; [contradiction|]. cbn [is_nil app] in Hp.
  rewrite strip_all_space in Hp by exact Hsp. destruct Hp as [<- | []]. contradiction.
Qed.

Lemma blank_stopword_alone_diverges_witness :
  txt " " <> [] /\ forallb is_space (txt " ") = true /\ strip (txt "Parafuso") <> []
  /\ extract_first_word 1000 DEFAULT_STOPWORDS (all_ignore_phrases [] (add_custom_stopword [] (txt " ")))
       (txt "Parafuso") = None.
Proof.
  assert (H1 : txt " " <> []) by discriminate.
  assert (H2 : forallb is_space (txt " ") = true) by (vm_compute; reflexivity).
  assert (H3 : strip (txt "Parafuso") <> []) by (vm_compute; discriminate).
  split; [exact H1|]. split; [exact H2|]. split; [exact H3|].
  exact (blank_stopword_alone_diverges (txt " ") 1000 DEFAULT_STOPWORDS (txt "Parafuso") H1 H2 H3).
Defined.

(** X11: [load_config] groups the rows by attribute: the list of an
    attribute holds one entry per complete row of that attribute (the three
    cells filled), in the order of the sheet; an attribute without such a
    row is absent. *)
Theorem load_config_groups : forall rows a,
  lookup a (load_config rows)
  = match flat_map (row_variation_for a) rows with [] => None | l => Some l end.
Proof. intros rows a. unfold load_config. rewrite lookup_load_config_rows. reflexivity. Qed.

(** X12: every recognition pattern kept by [load_config] is stripped and
    lowercase. *)
Theorem load_config_patterns_normalized : forall rows a vds vd p,
  lookup a (load_config rows) = Some vds -> In vd vds -> In p (patterns vd) ->
  strip p = p /\ lower p = p.
Proof.
  intros rows a vds vd p Hl Hvd Hp. unfold load_config in Hl.
  rewrite lookup_load_config_rows in Hl. cbn [lookup] in Hl.
  assert (Hin : In vd (flat_map (row_variation_for a) rows))
    by (destruct (flat_map _ rows); [discriminate | injection Hl as <-; exact Hvd]).
  apply in_flat_map in Hin as [r [_ Hr]]. unfold row_variation_for in Hr.
  destruct (row_attribute r), (row_variation r); try destruct Hr.
  destruct (_ && _); [|destruct Hr].
  destruct Hr as [<- | []]. exact (in_parse_patterns _ _ Hp).
Qed.

Lemma load_config_patterns_normalized_witness :
  lookup (txt "Voltagem") (load_config [{| row_attribute := Some (txt "Voltagem");
     row_variation := Some (txt "110V"); row_patterns := PyStr (txt " 110V , 110 v") |}])
  = Some [{| variation := txt "110V"; patterns := [txt "110v"; txt "110 v"] |}]
  /\ strip (txt "110 v") = txt "110 v" /\ lower (txt "110 v") = txt "110 v".
Proof.
  assert (H : lookup (txt "Voltagem") (load_config [{| row_attribute := Some (txt "Voltagem");
     row_variation := Some (txt "110V"); row_patterns := PyStr (txt " 110V , 110 v") |}])
     = Some [{| variation := txt "110V"; patterns := [txt "110v"; txt "110 v"] |}])
    by (vm_compute; reflexivity).
  split; [exact H|].
  apply (load_config_patterns_normalized _ _ _
           {| variation := txt "110V"; patterns := [txt "110v"; txt "110 v"] |} _ H);
    [left; reflexivity | right; left; reflexivity].
Defined.

(** X13: a recognition cell ending in a comma gives the empty pattern [""],
    and [\b\b] finds a match in every text with a word character: the
    variation is then reported for almost every description. *)
Theorem trailing_comma_pattern_matches_all : forall cell tl,
  existsb is_word tl = true ->
  pattern_hit tl (parse_patterns (PyStr (cell ++ [44%N]))) = true.
Proof.
  intros cell tl Hw. apply (pattern_hit_in tl []).
  - unfold parse_patterns. apply in_map_iff. exists [].
    split; [reflexivity | apply split_sep_aux_trailing].
  - rewrite search_bounded_empty. exact Hw.
Qed.

Lemma trailing_comma_pattern_matches_all_witness :
  existsb is_word (txt "parafuso m8") = true
  /\ pattern_hit (txt "parafuso m8") (parse_patterns (PyStr (txt "110v" ++ [44%N]))) = true.
Proof.
  assert (H : existsb is_word (txt "parafuso m8") = true) by (vm_compute; reflexivity).
  split; [exact H | exact (trailing_comma_pattern_matches_all (txt "110v") _ H)].
Defined.

(** X14: the category given to a first word is that of the last row of the
    category sheet whose word, lowercased, equals the first word lowercased
    ([dict(zip(...))] keeps the last value of a repeated key). *)
Theorem category_of_last_row : forall rows w,
  category_of (load_categories rows) (Word w)
  = option_map snd (find (fun r => text_eqb (lower (fst r)) (lower w)) (rev rows)).
Proof. intros rows w. cbn [category_of]. apply lookup_load_categories. Qed.

(** ** Ignore phrases in [extract_first_word] of [main.py] *)

Lemma insert_desc_sorted : forall {A} (key : A -> nat) x l,
  StronglySorted (fun a b => key b <= key a) l ->
  StronglySorted (fun a b => key b <= key a) (insert_desc key x l).
Proof.
  intros A key x l. induction l as [|y l IH]; intros H; cbn [insert_desc].
  - repeat constructor.
  - apply StronglySorted_inv in H as [Hl Hy].
    destruct (key y <=? key x) eqn:E.
    + apply Nat.leb_le in E. constructor; [constructor; assumption|].
      constructor; [exact E|]. eapply Forall_impl; [|exact Hy]. cbv beta. intros z Hz. lia.
    + apply Nat.leb_gt in E. constructor; [exact (IH Hl)|].
      apply (Permutation_Forall (Permutation_sym (insert_desc_perm key x l))).
      constructor; [lia | exact Hy].
Qed.

Lemma sort_desc_sorted : forall {A} (key : A -> nat) l,
  StronglySorted (fun a b => key b <= key a) (sort_desc key l).
Proof.
  intros A key l. induction l as [|x l IH]; cbn [sort_desc]; [constructor|].
  apply insert_desc_sorted. exact IH.
Qed.

Lemma find_sorted_max : forall {A} (key : A -> nat) (f : A -> bool) l q,
  StronglySorted (fun a b => key b <= key a) l -> find f l = Some q ->
  forall r, In r l -> f r = true -> key r <= key q.
Proof.
  intros A key f l q. induction l as [|x l IH]; intros Hs Hf r Hr Hfr; [destruct Hr|].
  apply StronglySorted_inv in Hs as [Hl Hx]. cbn [find] in Hf.
  destruct (f x) eqn:E.
  - injection Hf as <-. destruct Hr as [<- | Hr]; [lia|].
    rewrite Forall_forall in Hx. exact (Hx r Hr).
  - destruct Hr as [<- | Hr]; [rewrite E in Hfr; discriminate|]. exact (IH Hl Hf r Hr Hfr).
Qed.

Lemma drop_non_class_app : forall u x,
  Forall (fun c => in_word_class c = false) u -> drop_non_class (u ++ x) = drop_non_class x.
Proof.
  intros u x H. induction H as [|c u Hc _ IH]; [reflexivity|].
  cbn [app drop_non_class]. rewrite Hc. exact IH.
Qed.


(** X1: when [extract_first_word] strips an ignore phrase, it strips one of
    the longest phrases that start the text (compared without case), and then
    goes on with the stripped rest of the text. *)
Theorem extract_first_word_longest_phrase : forall n sw ip s p,
  In p ip -> prefixb (lower p) (lower (strip s)) = true -> strip s <> [] ->
  exists q, In q ip /\ prefixb (lower q) (lower (strip s)) = true
  /\ (forall r, In r ip -> prefixb (lower r) (lower (strip s)) = true -> length r <= length q)
  /\ extract_first_word (S n) sw ip s
     = match strip (skipn (length q) (strip s)) with
       | [] => Some NoWord
       | t => extract_first_word n sw ip t
       end.
Proof.
  intros n sw ip s p Hp Hpre Hs. cbn [extract_first_word].
  destruct ip as [|i ip']; [destruct Hp|]. cbn [is_nil negb].
  destruct (strip s) as [|c r] eqn:St; [contradiction|].
  destruct (find (fun phrase => prefixb (lower phrase) (lower (c :: r)))
                 (sort_desc (length (A:=char)) (i :: ip'))) as [q|] eqn:F.
  - exists q.
    assert (Hmax := find_sorted_max _ _ _ _ (sort_desc_sorted (length (A:=char)) (i :: ip')) F).
    apply find_some in F as [Hq Hqp].
    split; [eapply Permutation_in; [apply sort_desc_perm | exact Hq]|].
    split; [exact Hqp|]. split.
    + intros r' Hr' Hpr. apply Hmax; [|exact Hpr].
      eapply Permutation_in; [symmetry; apply sort_desc_perm | exact Hr'].
    + destruct (strip (skipn (length q) (c :: r))); reflexivity.
  - exfalso. assert (Hin : In p (sort_desc (length (A:=char)) (i :: ip')))
      by (eapply Permutation_in; [symmetry; apply sort_desc_perm | exact Hp]).
    rewrite (find_none _ _ F p Hin) in Hpre. discriminate.
Qed.

Lemma extract_first_word_longest_phrase_witness :
  extract_first_word 3 [] [txt "cota"; txt "cota de"] (txt "cota de Parafuso")
    = Some (Word (txt "Parafuso"))
  /\ exists q, In q [txt "cota"; txt "cota de"]
     /\ prefixb (lower q) (lower (strip (txt "cota de Parafuso"))) = true
     /\ (forall r, In r [txt "cota"; txt "cota de"] ->
           prefixb (lower r) (lower (strip (txt "cota de Parafuso"))) = true ->
           length r <= length q)
     /\ extract_first_word 3 [] [txt "cota"; txt "cota de"] (txt "cota de Parafuso")
        = match strip (skipn (length q) (strip (txt "cota de Parafuso"))) with
          | [] => Some NoWord
          | t => extract_first_word 2 [] [txt "cota"; txt "cota de"] t
          end.
Proof.
  split; [vm_compute; reflexivity|].
  apply (extract_first_word_longest_phrase 2 [] [txt "cota"; txt "cota de"] (txt "cota de Parafuso")
           (txt "cota")); [left; reflexivity | vm_compute; reflexivity | vm_compute; discriminate].
Defined.



(** X3: without ignore phrases, characters outside the class
    [[a-zA-ZÀ-ÿ0-9]] (punctuation, whitespace) put before a text that
    starts with a class character do not change the result. *)
Theorem extract_first_word_leading_junk : forall n sw r c s',
  Forall (fun d => in_word_class d = false) r -> in_word_class c = true ->
  extract_first_word n sw [] (r ++ c :: s') = extract_first_word n sw [] (c :: s').
Proof.
  intros [|n] sw r c s' Hr Hc; [reflexivity|].
  pose proof (in_word_class_not_space c Hc) as Hcs.
  destruct (rstrip_cons_nonspace c s' Hcs) as [e He].
  assert (Hs1 : strip (c :: s') = c :: e) by (unfold strip; rewrite lstrip_nonspace by exact Hcs; exact He).
  assert (Hs2 : exists u, strip (r ++ c :: s') = u ++ c :: e
                          /\ Forall (fun d => in_word_class d = false) u).
  { destruct (lstrip_suffix r) as [a Ha].
    assert (Hu : Forall (fun d => in_word_class d = false) (lstrip r))
      by (rewrite Ha in Hr; apply Forall_app in Hr; exact (proj2 Hr)).
    unfold strip. rewrite lstrip_app.
    destruct (lstrip r) as [|d l] eqn:L.
    - exists []. rewrite lstrip_nonspace by exact Hcs. split; [exact He | constructor].
    - exists (d :: l). split; [|exact Hu].
      rewrite rstrip_app_nonempty by (rewrite He; discriminate). rewrite He. reflexivity. }
  destruct Hs2 as [u [Hs2 Hu]].
  destruct (extract_first_word_cases n sw [] (r ++ c :: s'))
    as [[Hs _] | [[_ [_ E1]] | [q [[] _]]]].
  - rewrite Hs2 in Hs. destruct u; discriminate.
  - destruct (extract_first_word_cases n sw [] (c :: s'))
      as [[Hs _] | [[_ [_ E2]] | [q [[] _]]]].
    + rewrite Hs1 in Hs. discriminate.
    + rewrite E1, E2, Hs1, Hs2. unfold finish_first_word. rewrite drop_non_class_app by exact Hu.
      reflexivity.
Qed.

Lemma extract_first_word_leading_junk_witness :
  Forall (fun d => in_word_class d = false) (txt "-- ") /\ in_word_class 80%N = true
  /\ extract_first_word 2 DEFAULT_STOPWORDS [] (txt "-- " ++ 80%N :: txt "arafuso m8")
     = extract_first_word 2 DEFAULT_STOPWORDS [] (80%N :: txt "arafuso m8").
Proof.
  assert (H1 : Forall (fun d => in_word_class d = false) (txt "-- ")) by (repeat constructor).
  assert (H2 : in_word_class 80%N = true) by reflexivity.
  split; [exact H1|]. split; [exact H2|].
  exact (extract_first_word_leading_junk 2 DEFAULT_STOPWORDS (txt "-- ") 80%N (txt "arafuso m8") H1 H2).
Defined.
